(** * Verification of the rig-repl retrieval pipeline

    Shallow embedding of [src/rag_middleware.rs] ([query_rag]),
    [src/rag_builder.rs] ([RAGBuilder::ingest_docs] and the per-format
    ingest functions) and [src/rig_agent.rs] (one iteration of
    [RigAgent::start_repl]).

    Scores are IEEE-754 binary64 values, as the [f64] of the source, using
    Rocq's primitive floats.  Rust [String]s and [&str]s are byte strings
    ([String.string]); [len()] is the byte length. *)

From Stdlib Require Import String Ascii List Lia Bool Arith PrimFloat.
Import ListNotations.
Set Warnings "-inexact-float,-abstract-large-number".
Open Scope string_scope.
Open Scope list_scope.

(** ** Common definitions *)

(** Rust's [Result<T, E>]. *)
Inductive result (T E : Type) : Type :=
| Ok : T -> result T E
| Err : E -> result T E.
Arguments Ok {T E} _.
Arguments Err {T E} _.

(** Byte strings built from a character code, used for the characters that
    cannot be written directly in a string literal. *)
Definition chr (n : nat) : string := String (ascii_of_nat n) EmptyString.
Definition NL : string := chr 10.
Definition DQ : string := chr 34.

(** [String.concat] is [join]. *)
Definition join (sep : string) (xs : list string) : string :=
  String.concat sep xs.

(** ** The chunk record ([rag_builder.rs]) *)

Record UniswapChunk := mkUniswapChunk {
  file_name : string;
  content : string
}.

(** [UniswapChunk::new]: the name is copied, the content starts empty. *)
Definition UniswapChunk_new (name : string) : UniswapChunk :=
  {| file_name := name; content := EmptyString |}.

(** ** Context assembly ([rag_middleware.rs]) *)

Definition SEPARATOR : string := NL ++ NL ++ "---" ++ NL ++ NL.
Definition DISTANCE : float := 0.9%float.
Definition MAX_CHAR_LEN : nat := 30000.

(** [format!("Source: {}\nContent: {}", name, chunk.content)] *)
Definition format_entry (name : string) (chunk : UniswapChunk) : string :=
  "Source: " ++ name ++ NL ++ "Content: " ++ content chunk.

(** The final [format!] of [query_rag]:
    ["You have access to the following relevant documentation: \n\n{context}\n\n --- \n\nUser: {query}"] *)
Definition format_prompt (context query : string) : string :=
  "You have access to the following relevant documentation: " ++ NL ++ NL
    ++ context ++ NL ++ NL ++ " --- " ++ NL ++ NL ++ "User: " ++ query.

(** One search result: [(score, name, chunk)]. *)
Definition SearchResult : Type := (float * string * UniswapChunk)%type.

(** The [for] loop of [query_rag], lines 28-37, with its two mutable locals
    [ctx_size] and [context] threaded through.  [score > 0.9] is
    [0.9 < score]; both [if]s end in [continue]. *)
Fixpoint assemble (rs : list SearchResult) (ctx_size : nat)
    (context : list string) : nat * list string :=
  match rs with
  | [] => (ctx_size, context)
  | (score, name, chunk) :: rest =>
      if PrimFloat.ltb 0.9%float score then assemble rest ctx_size context
      else if Nat.ltb MAX_CHAR_LEN (String.length (content chunk) + ctx_size)
      then assemble rest ctx_size context
      else assemble rest (ctx_size + String.length (content chunk))
             (context ++ [format_entry name chunk])
  end.

(** The [ctx_size] threaded through [assemble] is the sum of the admitted
    chunks' lengths. *)
Definition admitted_size (rs : list SearchResult) : nat :=
  fst (assemble rs 0 []).

(** The agent state that [query_rag] reads and mutates through [&mut self]:
    the completion agent, the vector index and the [history] field that
    [query_rag] clears ([self.history.clear()]).  The declaration of
    [struct RigAgent] in [rig_agent.rs] lists only [agent] and [index]; the
    [history] field is the one [query_rag] refers to.  [start_repl] keeps its
    own local [history], passed to the completion agent, which is a
    different vector. *)
Record RigAgent {Agent Index Message : Type} := mkRigAgent {
  agent : Agent;
  index : Index;
  history : list Message
}.
Arguments RigAgent : clear implicits.

Section QueryRag.
Context {Agent Index Message Request Error : Type}.

(** [VectorSearchRequest::builder().query(query).samples(n).build()]. *)
Variable build_request : string -> nat -> result Request Error.
(** [self.index.top_n(req)]: the ranked results of the vector index. *)
Variable top_n : Index -> Request -> result (list SearchResult) Error.


(** [self.history.clear()]: every other field is kept. *)
Definition clear_history (self : RigAgent Agent Index Message)
    : RigAgent Agent Index Message :=
  {| agent := agent self; index := index self; history := [] |}.

(** [RagMiddleware::query_rag] for [RigAgent], in state-passing style:
    the returned agent is [self] after the call. *)
Definition query_rag (self : RigAgent Agent Index Message) (query : string)
    : RigAgent Agent Index Message * result string Error :=
  match build_request query 30 with
  | Err e => (self, Err e)
  | Ok req =>
      match top_n (index self) req with
      | Err e => (self, Err e)
      | Ok search_results =>
          match search_results with
          | [] => (self, Ok query)
          | _ :: _ =>
              let self := clear_history self in
              let context := snd (assemble search_results 0 []) in
              let context := join SEPARATOR context in
              (self, Ok (format_prompt context query))
          end
      end
  end.
End QueryRag.

(** ** One turn of the REPL ([RigAgent::start_repl], [rig_agent.rs]) *)

(** [str::trim] on the ASCII range: [char::is_whitespace] holds for the
    bytes 9-13 and 32.  Multi-byte Unicode spaces such as U+00A0, which
    [str::trim] also strips, are not modelled; the properties of the loop
    below hold for any [trim] or are limited to ASCII whitespace. *)
Definition is_whitespace (c : ascii) : bool :=
  let n := nat_of_ascii c in ((9 <=? n) && (n <=? 13) || (n =? 32))%nat.

Fixpoint trim_start (s : string) : string :=
  match s with
  | EmptyString => EmptyString
  | String c rest => if is_whitespace c then trim_start rest else s
  end.

Definition trim (s : string) : string :=
  string_of_list_ascii
    (rev (list_ascii_of_string
            (trim_start (string_of_list_ascii
                           (rev (list_ascii_of_string (trim_start s))))))).

(** [rustyline::error::ReadlineError], with its [Display] text. *)
Inductive ReadlineError :=
| Eof
| Interrupted
| ReadlineIo (msg : string).

Definition show_readline_error (e : ReadlineError) : string :=
  match e with
  | Eof => "EOF"
  | Interrupted => "Interrupted"
  | ReadlineIo msg => msg
  end.

(** Observable effects of one turn: a line printed on stdout, or a request
    sent to the completion agent. *)
Inductive Event :=
| Printed (s : string)
| Prompted (msg : string).

(** How the [loop] goes on after one iteration: next iteration, [break], or
    leaving [start_repl] through [?] with an error. *)
Inductive LoopStep (S H E : Type) :=
| Continue (self : S) (history : H)
| Break
| Return (e : E).
Arguments Continue {S H E} _ _.
Arguments Break {S H E}.
Arguments Return {S H E} _.

Definition PROCESSING_MESSAGE : string := "Claude: Processing Request...".

Section Repl.
Context {Agent Index Message Request Error PromptError : Type}.
Variable build_request : string -> nat -> result Request Error.
Variable top_n : Index -> Request -> result (list SearchResult) Error.
(** [self.agent.prompt(query).multi_turn(20).with_history(&mut history)]:
    the completion capability, which updates the REPL's [history]. *)
Variable prompt : Agent -> string -> list Message ->
                  list Message * result string PromptError.
(** [Display] of [PromptError]. *)
Variable show_prompt_error : PromptError -> string.

(** [display_response] and [display_prompt_err]. *)
Definition display (r : result string PromptError) : string :=
  match r with
  | Ok reply => NL ++ "Claude:" ++ NL ++ reply ++ NL
  | Err e => "Sorry there was an error processing your input: "
               ++ show_prompt_error e
  end.

(** One iteration of the [loop] of [start_repl], given what
    [rl.readline(">>> ")] returned.  [history] is the local [Vec<Message>]
    of [start_repl]; the agent is threaded because [query_rag] takes
    [&mut self]. *)
Definition repl_iter (self : RigAgent Agent Index Message)
    (history : list Message) (line : result string ReadlineError)
    : list Event * LoopStep (RigAgent Agent Index Message) (list Message) Error :=
  match line with
  | Ok line =>
      if string_dec (trim line) "quit" then ([], Break)
      else
        match query_rag build_request top_n self line with
        | (_, Err e) => ([Printed PROCESSING_MESSAGE], Return e)
        | (self, Ok query) =>
            let (history, reply) := prompt (agent self) query history in
            ([Printed PROCESSING_MESSAGE; Prompted query; Printed (display reply)],
             Continue self history)
        end
  | Err e => ([Printed ("read line error: " ++ show_readline_error e)],
              Continue self history)
  end.

(** Where the REPL is after a sequence of [readline] results: still in the
    loop, or out of [start_repl] with its [anyhow::Result<()>]. *)
Inductive ReplState :=
| Running (self : RigAgent Agent Index Message) (history : list Message)
| Terminated (r : result unit Error).

(** The [loop] fed with the given [readline] results, one per iteration. *)
Fixpoint repl_loop (self : RigAgent Agent Index Message)
    (history : list Message) (lines : list (result string ReadlineError))
    : list Event * ReplState :=
  match lines with
  | [] => ([], Running self history)
  | l :: rest =>
      let (out, step) := repl_iter self history l in
      match step with
      | Continue self history =>
          let (out', st) := repl_loop self history rest in (out ++ out', st)
      | Break => (out, Terminated (Ok tt))
      | Return e => (out, Terminated (Err e))
      end
  end.
End Repl.

(** ** Ingestion ([rag_builder.rs]) *)

(** [std::path::Path::extension] on a file name (the final component):
    the part after the last ['.'], except that a name without a dot, a name
    whose only dot is its first byte, and [".."] have none. *)
Fixpoint rsplit_once_dot_rev (rev_name : list ascii) (after : list ascii)
    : option (list ascii * list ascii) :=
  match rev_name with
  | [] => None
  | c :: rest =>
      if ascii_dec c "."%char then Some (rev rest, after)
      else rsplit_once_dot_rev rest (c :: after)
  end.

Definition extension (name : string) : option string :=
  if string_dec name ".." then None
  else
    match rsplit_once_dot_rev (rev (list_ascii_of_string name)) [] with
    | None => None
    | Some ([], _) => None
    | Some (_, after) => Some (string_of_list_ascii after)
    end.

(** Lower-case hexadecimal digits of a number below 256, without leading
    zeros (the [{:x}] of [\u{...}]). *)
Definition hex_digit (n : nat) : string :=
  chr (if n <? 10 then 48 + n else 87 + n)%nat.

Definition hex_small (n : nat) : string :=
  if (n <? 16)%nat then hex_digit n
  else hex_digit (n / 16) ++ hex_digit (n mod 16).

(** The escape that the [Debug] form of [str] and [OsStr] applies to an
    ASCII character: [char::escape_debug_ext] with single quotes left as
    they are. *)
Definition escape_debug (c : ascii) : string :=
  let n := nat_of_ascii c in
  let bs := chr 92 in
  if (n =? 0)%nat then bs ++ "0"
  else if (n =? 9)%nat then bs ++ "t"
  else if (n =? 10)%nat then bs ++ "n"
  else if (n =? 13)%nat then bs ++ "r"
  else if (n =? 34)%nat then bs ++ DQ
  else if (n =? 92)%nat then bs ++ bs
  else if ((n <? 32) || (n =? 127))%nat then bs ++ "u{" ++ hex_small n ++ "}"
  else String c EmptyString.

(** [format!("{:?}", file.file_name())]: the [Debug] rendering of an
    [OsStr], i.e. the name between double quotes with each character
    passed through [escape_debug].  Bytes from 128 up are passed through
    unchanged here, whereas Rust escapes non-printable Unicode characters
    and shows invalid UTF-8 bytes as [\xNN]; the properties below do not
    depend on those cases. *)
Definition debug_os_str (name : string) : string :=
  DQ ++ String.concat "" (map escape_debug (list_ascii_of_string name)) ++ DQ.

Record Config := mkConfig {
  server_bind_address : string;
  api_key : string;
  openai_api_key : string;
  preamble : string;
  rag_directories : list string
}.

Record RAGBuilder := mkRAGBuilder {
  docs : list UniswapChunk;
  cfg : Config
}.

(** [RAGBuilder::new]. *)
Definition RAGBuilder_new (cfg : Config) : RAGBuilder :=
  {| docs := []; cfg := cfg |}.

Inductive FileType := FtFile | FtDir | FtSymlink.

(** A [walkdir::DirEntry]: its path, as its non-empty components, and its
    file type. *)
Record DirEntry := mkDirEntry {
  entry_components : list string;
  entry_file_type : FileType
}.

Definition entry_path (e : DirEntry) : string :=
  join "/" (entry_components e).

(** [DirEntry::file_name]: the final component of the path. *)
Definition entry_file_name (e : DirEntry) : string :=
  last (entry_components e) (entry_path e).

Definition is_file (e : DirEntry) : bool :=
  match entry_file_type e with FtFile => true | _ => false end.

Definition MD_EXTENSION : string := "md".
Definition SOL_EXTENSION : string := "sol".

(** The chunk pushed for each piece of a split file:
    [let mut doc = UniswapChunk::new(&name); doc.content = String::from(chunk)]. *)
Definition chunk_doc (name chunk : string) : UniswapChunk :=
  let doc := UniswapChunk_new name in
  {| file_name := file_name doc; content := chunk |}.

Section Ingest.
Context {Error : Type}.
(** [WalkDir::new(dir).into_iter()]: the entries of one root, or errors. *)
Variable walk : string -> list (result DirEntry Error).
(** [fs::read_to_string]. *)
Variable read_to_string : string -> result string Error.
(** [MarkdownSplitter::new(ChunkConfig::new(1000)).chunks]. *)
Variable markdown_chunks : string -> list string.
(** [CodeSplitter::new(tree_sitter_solidity::LANGUAGE, ChunkConfig::new(1000))]:
    either the splitter's [chunks] function or the construction error. *)
Variable code_splitter_new : result (string -> list string) Error.

(** [ingest_md_file]. *)
Definition ingest_md_file (self : RAGBuilder) (file name : string)
    : result RAGBuilder Error :=
  Ok {| docs := docs self ++ map (chunk_doc name) (markdown_chunks file);
        cfg := cfg self |}.

(** [ingest_solidity_file]. *)
Definition ingest_solidity_file (self : RAGBuilder) (file name : string)
    : result RAGBuilder Error :=
  match code_splitter_new with
  | Err e => Err e
  | Ok code_chunks =>
      Ok {| docs := docs self ++ map (chunk_doc name) (code_chunks file);
            cfg := cfg self |}
  end.

(** The body of the inner [for] of [ingest_docs], for one regular file. *)
Definition ingest_entry (self : RAGBuilder) (file : DirEntry)
    : result RAGBuilder Error :=
  let path := entry_path file in
  let name := debug_os_str (entry_file_name file) in
  match extension (entry_file_name file) with
  | Some ext =>
      if string_dec ext MD_EXTENSION then
        match read_to_string path with
        | Err e => Err e
        | Ok file_str => ingest_md_file self file_str name
        end
      else if string_dec ext SOL_EXTENSION then
        match read_to_string path with
        | Err e => Err e
        | Ok file_str => ingest_solidity_file self file_str name
        end
      else Ok self
  | None => Ok self
  end.

(** The inner [for] over [WalkDir::new(dir).into_iter()
    .filter_map(Result::ok).filter(|e| e.file_type().is_file())];
    a [?] leaves [ingest_docs] at the first error. *)
Fixpoint ingest_entries (self : RAGBuilder)
    (entries : list (result DirEntry Error)) : result RAGBuilder Error :=
  match entries with
  | [] => Ok self
  | Err _ :: rest => ingest_entries self rest
  | Ok file :: rest =>
      if is_file file then
        match ingest_entry self file with
        | Err e => Err e
        | Ok self => ingest_entries self rest
        end
      else ingest_entries self rest
  end.

(** The outer [for dir in self.cfg.rag_directories.clone()]. *)
Fixpoint ingest_dirs (self : RAGBuilder) (dirs : list string)
    : result RAGBuilder Error :=
  match dirs with
  | [] => Ok self
  | dir :: rest =>
      match ingest_entries self (walk dir) with
      | Err e => Err e
      | Ok self => ingest_dirs self rest
      end
  end.

(** [RAGBuilder::ingest_docs]. *)
Definition ingest_docs (self : RAGBuilder) : result RAGBuilder Error :=
  ingest_dirs self (rag_directories (cfg self)).
End Ingest.

(** [.filter_map(Result::ok)] on the walk: the entries it yields, with its
    errors left out. *)
Fixpoint ok_entries {Error : Type} (es : list (result DirEntry Error))
    : list DirEntry :=
  match es with
  | [] => []
  | Ok file :: rest => file :: ok_entries rest
  | Err _ :: rest => ok_entries rest
  end.

(** Where an ingested chunk comes from: the file was read, the chunk is
    named after it, and its text is one piece returned by the splitter that
    the file's extension selects. *)
Definition chunk_from_file {Error : Type}
    (read_to_string : string -> result string Error)
    (markdown_chunks : string -> list string)
    (code_splitter_new : result (string -> list string) Error)
    (file : DirEntry) (c : UniswapChunk) : Prop :=
  exists file_str,
    read_to_string (entry_path file) = Ok file_str /\
    file_name c = debug_os_str (entry_file_name file) /\
    ((extension (entry_file_name file) = Some MD_EXTENSION /\
      In (content c) (markdown_chunks file_str))
     \/ (extension (entry_file_name file) = Some SOL_EXTENSION /\
         exists code_chunks, code_splitter_new = Ok code_chunks /\
                             In (content c) (code_chunks file_str))).

(** Why ingesting one file can fail: its read failed, or, for a Solidity
    file, the code splitter could not be built. *)
Definition file_failure {Error : Type}
    (read_to_string : string -> result string Error)
    (code_splitter_new : result (string -> list string) Error)
    (file : DirEntry) (e : Error) : Prop :=
  ((extension (entry_file_name file) = Some MD_EXTENSION
    \/ extension (entry_file_name file) = Some SOL_EXTENSION)
   /\ read_to_string (entry_path file) = Err e)
  \/ (extension (entry_file_name file) = Some SOL_EXTENSION
      /\ code_splitter_new = Err e).

(** Characters that [escape_debug] leaves as they are: printable ASCII
    other than the double quote and the backslash. *)
Definition debug_plain (c : ascii) : bool :=
  let n := nat_of_ascii c in
  ((32 <=? n) && (n <=? 126) && negb (n =? 34) && negb (n =? 92))%nat.

(** ** Configuration ([common/mod.rs]) *)

(** [std::env::VarError]: the variable is unset, or its value is not
    valid Unicode. *)
Inductive VarError :=
| NotPresent
| NotUnicode (raw : string).

Definition ENV_SERVER_ADDRESS : string := "MCP_SERVER_ADDRESS".
Definition ENV_SERVER_PORT : string := "MCP_SERVER_PORT".
Definition ENV_ANTHROPIC_API_KEY : string := "ANTHROPIC_API_KEY".
Definition ENV_OPENAI_API_KEY : string := "OPENAI_API_KEY".
Definition ENV_RIG_PREAMBLE : string := "RIG_PREAMBLE".
Definition ENV_UNISWAP_DOCS_DIR_V2 : string := "UNISWAP_DOCS_DIR_V2".
Definition ENV_UNISWAP_DOCS_DIR_V3 : string := "UNISWAP_DOCS_DIR_V3".
Definition ENV_UNISWAP_SOURCE_DIR_V2 : string := "UNISWAP_SOURCE_DIR_V2".
Definition ENV_UNISWAP_SOURCE_DIR_V3 : string := "UNISWAP_SOURCE_DIR_V3".

Section Env.
(** The process environment, as [std::env::var] reads it. *)
Variable env : string -> result string VarError.

(** [get_env_var]. *)
Definition get_env_var (name : string) : result string VarError :=
  env name.

(** [get_bind_address]: [format!("{addr}:{port}")]. *)
Definition get_bind_address : result string VarError :=
  match get_env_var ENV_SERVER_ADDRESS with
  | Err e => Err e
  | Ok addr =>
      match get_env_var ENV_SERVER_PORT with
      | Err e => Err e
      | Ok port => Ok (addr ++ ":" ++ port)%string
      end
  end.

(** [.expect(msg)]: a panic, carrying the message given to [expect] (the
    rendering of the error that [expect] appends is left out). *)
Definition expect {T E : Type} (r : result T E) (msg : string) : result T string :=
  match r with
  | Ok v => Ok v
  | Err _ => Err msg
  end.

(** [Config::new]: the four directories first, in [vec!] order, then the
    fields in the order of the struct literal; the first failing [expect]
    panics. *)
Definition Config_new : result Config string :=
  match expect (get_env_var ENV_UNISWAP_DOCS_DIR_V2) "ENV_UNISWAP_DOCS_DIR_V2 not set" with
  | Err m => Err m | Ok docs_v2 =>
  match expect (get_env_var ENV_UNISWAP_DOCS_DIR_V3) "ENV_UNISWAP_DOCS_DIR_V3 not set" with
  | Err m => Err m | Ok docs_v3 =>
  match expect (get_env_var ENV_UNISWAP_SOURCE_DIR_V2) "ENV_UNISWAP_SOURCE_DIR_V2 not set" with
  | Err m => Err m | Ok src_v2 =>
  match expect (get_env_var ENV_UNISWAP_SOURCE_DIR_V3) "ENV_UNISWAP_SOURCE_DIR_V3 not set" with
  | Err m => Err m | Ok src_v3 =>
  let rag_directories := [docs_v2; docs_v3; src_v2; src_v3] in
  match expect get_bind_address "get bind address failed" with
  | Err m => Err m | Ok server_bind_address =>
  match expect (get_env_var ENV_ANTHROPIC_API_KEY) "failed to get anthropic api key" with
  | Err m => Err m | Ok api_key =>
  match expect (get_env_var ENV_OPENAI_API_KEY) "failed to get openai api key" with
  | Err m => Err m | Ok openai_api_key =>
  match expect (get_env_var ENV_RIG_PREAMBLE) "failed to set preamble" with
  | Err m => Err m | Ok preamble =>
  Ok {| server_bind_address := server_bind_address; api_key := api_key;
        openai_api_key := openai_api_key; preamble := preamble;
        rag_directories := rag_directories |}
  end end end end end end end end.
End Env.

(** The variables [Config::new] reads, in the order it reads them, each
    with the message of the [expect] that guards it. *)
Definition config_vars : list (string * string) :=
  [(ENV_UNISWAP_DOCS_DIR_V2, "ENV_UNISWAP_DOCS_DIR_V2 not set");
   (ENV_UNISWAP_DOCS_DIR_V3, "ENV_UNISWAP_DOCS_DIR_V3 not set");
   (ENV_UNISWAP_SOURCE_DIR_V2, "ENV_UNISWAP_SOURCE_DIR_V2 not set");
   (ENV_UNISWAP_SOURCE_DIR_V3, "ENV_UNISWAP_SOURCE_DIR_V3 not set");
   (ENV_SERVER_ADDRESS, "get bind address failed");
   (ENV_SERVER_PORT, "get bind address failed");
   (ENV_ANTHROPIC_API_KEY, "failed to get anthropic api key");
   (ENV_OPENAI_API_KEY, "failed to get openai api key");
   (ENV_RIG_PREAMBLE, "failed to set preamble")].

(** The message of the first variable of [vars] that [env] cannot give. *)
Fixpoint first_unset (env : string -> result string VarError)
    (vars : list (string * string)) : option string :=
  match vars with
  | [] => None
  | (name, msg) :: rest =>
      match env name with
      | Err _ => Some msg
      | Ok _ => first_unset env rest
      end
  end.

(** [get_mcp_tools]: [format!("http://{bind_addr}/sse")], the URL of the
    SSE transport. *)
Definition sse_url (bind_addr : string) : string :=
  "http://" ++ bind_addr ++ "/sse".

(** [Sublist]: [xs] keeps some of the elements of [ys], in order. *)
Inductive subseq {A : Type} : list A -> list A -> Prop :=
| subseq_nil : subseq [] []
| subseq_skip x xs ys : subseq xs ys -> subseq xs (x :: ys)
| subseq_keep x xs ys : subseq xs ys -> subseq (x :: xs) (x :: ys).

(** Sum of the chunk lengths of a result list. *)
Definition total_length (rs : list SearchResult) : nat :=
  fold_right (fun '(_, _, chunk) acc => String.length (content chunk) + acc) 0 rs.

Definition entry_of (r : SearchResult) : string :=
  let '(_, name, chunk) := r in format_entry name chunk.

(** ** The earlier REPL of [main.rs] *)

Module MainRs.
Section Loop.
Context {Agent Message Error : Type}.
(** [self.provider.chat(&line, chat_history.clone())]. *)
Variable chat : Agent -> string -> list Message -> result string Error.
(** [rig::message::Message::from(&line)]: a user message. *)
Variable user_message : string -> Message.

(** One iteration of the [loop] of [RigAgent::start_repl] in [main.rs]:
    push the line, chat with the whole history, print the reply; [break]
    on any [readline] error. *)
Definition repl_iter (provider : Agent) (chat_history : list Message)
    (line : result string ReadlineError)
    : list Event * LoopStep Agent (list Message) Error :=
  match line with
  | Ok line =>
      let chat_history := chat_history ++ [user_message line] in
      match chat provider line chat_history with
      | Err e => ([Prompted line], Return e)
      | Ok reply =>
          ([Prompted line; Printed (NL ++ "Claude:" ++ NL ++ reply ++ NL)],
           Continue provider chat_history)
      end
  | Err _ => ([], Break)
  end.

Inductive ReplState :=
| Running (chat_history : list Message)
| Terminated (r : result unit Error).

Fixpoint repl_loop (provider : Agent) (chat_history : list Message)
    (lines : list (result string ReadlineError)) : list Event * ReplState :=
  match lines with
  | [] => ([], Running chat_history)
  | l :: rest =>
      let (out, step) := repl_iter provider chat_history l in
      match step with
      | Continue provider chat_history =>
          let (out', st) := repl_loop provider chat_history rest in (out ++ out', st)
      | Break => (out, Terminated (Ok tt))
      | Return e => (out, Terminated (Err e))
      end
  end.
End Loop.
End MainRs.

(** ** Concrete instances

    A search backend whose index is the ranked result list itself, used to
    run [query_rag] and [start_repl] on explicit inputs. *)
Definition demo_request (q : string) (n : nat) : result string string := Ok q.

Definition demo_top_n (idx : list SearchResult) (req : string)
    : result (list SearchResult) string :=
  Ok idx.

Definition failing_top_n (idx : list SearchResult) (req : string)
    : result (list SearchResult) string :=
  Err "connection refused".

Definition demo_agent (rs : list SearchResult)
    : RigAgent unit (list SearchResult) string :=
  {| agent := tt; index := rs; history := ["earlier turn"] |}.

Fixpoint text_of_length (n : nat) : string :=
  match n with
  | O => EmptyString
  | S n => String "a"%char (text_of_length n)
  end.

Definition demo_chunk (n : nat) : UniswapChunk :=
  {| file_name := "doc"; content := text_of_length n |}.

(** A ranked list with a result scored exactly 0.9 in the middle: a
    20000-character chunk before it and a result scored above 0.9 after it. *)
Definition threshold_pre : list SearchResult := [(0.5%float, "a", demo_chunk 20000)].

Definition threshold_post : list SearchResult := [(0.95%float, "c", demo_chunk 5)].

Definition threshold_results : list SearchResult :=
  threshold_pre ++ (0.9%float, "b", demo_chunk 100) :: threshold_post.

(** An environment where each variable is set to its own name, except the
    listed ones, which are unset. *)
Definition demo_env (unset : list string) (name : string) : result string VarError :=
  if existsb (String.eqb name) unset then Err NotPresent else Ok name.

(** A chat service that always answers. *)
Definition demo_chat (a : unit) (line : string) (h : list string)
    : result string string :=
  Ok "ok".

(** A completion agent that records the message in the history and
    answers. *)
Definition demo_prompt (a : unit) (msg : string) (h : list string)
    : list string * result string string :=
  (h ++ [msg], Ok "ok").

Definition demo_show (e : string) : string := e.

(** A completion agent that fails after recording the message. *)
Definition failing_prompt (a : unit) (msg : string) (h : list string)
    : list string * result string string :=
  (h ++ [msg], Err "overloaded").

(** A directory ["docs"] holding an unreadable Markdown file and a
    Solidity file, and a configuration that ingests it. *)
Definition broken_md_entry : DirEntry :=
  {| entry_components := ["docs"; "broken.md"]; entry_file_type := FtFile |}.

Definition pool_sol_entry : DirEntry :=
  {| entry_components := ["docs"; "Pool.sol"]; entry_file_type := FtFile |}.

Definition demo_config (dirs : list string) : Config :=
  {| server_bind_address := "127.0.0.1:3000"; api_key := "k";
     openai_api_key := "k"; preamble := "p"; rag_directories := dirs |}.

Definition demo_walk (entries : list DirEntry) (dir : string)
    : list (result DirEntry string) :=
  if string_dec dir "docs" then map Ok entries else [].

Definition demo_read (path : string) : result string string :=
  if string_dec path "docs/broken.md" then Err "permission denied"
  else Ok "contract A {}".

(** A splitter that keeps a whole file as one chunk. *)
Definition whole_file (file : string) : list string := [file].

Definition demo_code_splitter : result (string -> list string) string :=
  Ok whole_file.

(** A splitter whose construction fails. *)
Definition failing_code_splitter : result (string -> list string) string :=
  Err "incompatible language version".

(** The walk of [demo_walk], with an error entry first. *)
Definition erroring_walk (entries : list DirEntry) (dir : string)
    : list (result DirEntry string) :=
  Err "too many levels of symbolic links" :: demo_walk entries dir.

(** Equality test on a [query_rag] outcome, so that long outputs are
    compared by evaluation rather than by conversion. *)
Definition ok_string_eqb {E : Type} (r : result string E) (s : string) : bool :=
  match r with Ok t => String.eqb t s | Err _ => false end.

(** ** Context assembly: general facts *)

Lemma ok_string_eqb_sound {E : Type} (r : result string E) (s : string) :
  ok_string_eqb r s = true -> r = Ok s.
Proof.
  destruct r as [t | e]; simpl; [| discriminate].
  intro H. apply String.eqb_eq in H. now subst.
Qed.

Lemma assemble_size_le (rs : list SearchResult) :
  forall ctx_size context,
    ctx_size <= MAX_CHAR_LEN -> fst (assemble rs ctx_size context) <= MAX_CHAR_LEN.
Proof.
  induction rs as [| [[score name] chunk] rest IH]; intros ctx_size context Hle;
    simpl; [exact Hle |].
  destruct (PrimFloat.ltb 0.9%float score); [now apply IH |].
  destruct (Nat.ltb MAX_CHAR_LEN (String.length (content chunk) + ctx_size)) eqn:E;
    [now apply IH |].
  apply IH. apply Nat.ltb_ge in E. lia.
Qed.

(** When every result is rejected, the loop leaves both locals untouched. *)
Lemma assemble_all_rejected (rs : list SearchResult) :
  Forall (fun '(score, _, chunk) =>
            PrimFloat.ltb 0.9%float score = true
            \/ MAX_CHAR_LEN < String.length (content chunk)) rs ->
  forall ctx_size context, assemble rs ctx_size context = (ctx_size, context).
Proof.
  induction 1 as [| [[score name] chunk] rest Hx _ IH]; intros ctx_size context;
    simpl; [reflexivity |].
  destruct Hx as [Hs | Hl]; [now rewrite Hs |].
  destruct (PrimFloat.ltb 0.9%float score); [apply IH |].
  replace (Nat.ltb MAX_CHAR_LEN (String.length (content chunk) + ctx_size))
    with true by (symmetry; apply Nat.ltb_lt; lia).
  apply IH.
Qed.

Lemma string_app_assoc (s1 s2 s3 : string) :
  ((s1 ++ s2) ++ s3)%string = (s1 ++ s2 ++ s3)%string.
Proof. induction s1; simpl; congruence. Qed.

Lemma length_append (s1 s2 : string) :
  String.length (s1 ++ s2) = String.length s1 + String.length s2.
Proof. induction s1; simpl; auto. Qed.

Lemma assemble_app (rs rs' : list SearchResult) :
  forall ctx_size context,
    assemble (rs ++ rs') ctx_size context
    = let (ctx_size, context) := assemble rs ctx_size context in
      assemble rs' ctx_size context.
Proof.
  induction rs as [| [[score name] chunk] rest IH]; intros ctx_size context;
    [reflexivity |].
  simpl. destruct (PrimFloat.ltb 0.9%float score); [apply IH |].
  destruct (Nat.ltb MAX_CHAR_LEN (String.length (content chunk) + ctx_size));
    apply IH.
Qed.

(** The context [assemble] starts from is kept as a prefix; the rest does
    not depend on it. *)
Lemma assemble_context (rs : list SearchResult) :
  forall ctx_size context,
    assemble rs ctx_size context
    = (fst (assemble rs ctx_size []), context ++ snd (assemble rs ctx_size [])).
Proof.
  induction rs as [| [[score name] chunk] rest IH]; intros ctx_size context.
  - simpl. now rewrite app_nil_r.
  - simpl. destruct (PrimFloat.ltb 0.9%float score); [apply IH |].
    destruct (Nat.ltb MAX_CHAR_LEN (String.length (content chunk) + ctx_size));
      [apply IH |].
    rewrite (IH _ (context ++ _)), (IH _ [format_entry name chunk]). simpl.
    now rewrite <- app_assoc.
Qed.

Section QueryRagFacts.
Context {Agent Index Message Request Error : Type}.
Variable build_request : string -> nat -> result Request Error.
Variable top_n : Index -> Request -> result (list SearchResult) Error.

Lemma query_rag_results (self : RigAgent Agent Index Message) query req rs :
  build_request query 30 = Ok req ->
  top_n (index self) req = Ok rs ->
  rs <> [] ->
  query_rag build_request top_n self query =
    (clear_history self,
     Ok (format_prompt (join SEPARATOR (snd (assemble rs 0 []))) query)).
Proof.
  intros Hreq Hsearch Hne. unfold query_rag. rewrite Hreq, Hsearch.
  destruct rs; [contradiction | reflexivity].
Qed.
End QueryRagFacts.

(** ** Claims about [query_rag] *)

(** C1 (as amended): [query_rag] scans the ranked results in order.  A result
    that passes the score filter is admitted when its length plus the
    admitted total stays within [MAX_CHAR_LEN] = 30000; otherwise it is
    skipped and the scan goes on with the later results.  The admitted total
    never exceeds 30000. *)
Theorem query_rag_budget_first_fit :
  (forall rs, admitted_size rs <= MAX_CHAR_LEN) /\
  (forall score name chunk rest ctx_size context,
     PrimFloat.ltb 0.9%float score = false ->
     MAX_CHAR_LEN < String.length (content chunk) + ctx_size ->
     assemble ((score, name, chunk) :: rest) ctx_size context
     = assemble rest ctx_size context) /\
  (forall score name chunk rest ctx_size context,
     PrimFloat.ltb 0.9%float score = false ->
     String.length (content chunk) + ctx_size <= MAX_CHAR_LEN ->
     assemble ((score, name, chunk) :: rest) ctx_size context
     = assemble rest (ctx_size + String.length (content chunk))
         (context ++ [format_entry name chunk])).
Proof.
  split; [| split].
  - intro rs. unfold admitted_size. apply assemble_size_le. unfold MAX_CHAR_LEN. lia.
  - intros score name chunk rest ctx_size context Hs Hover. simpl. rewrite Hs.
    apply Nat.ltb_lt in Hover. now rewrite Hover.
  - intros score name chunk rest ctx_size context Hs Hfit. simpl. rewrite Hs.
    apply Nat.ltb_ge in Hfit. now rewrite Hfit.
Qed.

(** C1 counterexample: with chunks of 20000, 15000 and 100 characters, all
    scored 0.5, and the 30000 budget, [query_rag] admits the first and the
    third chunk: it skips the overflowing second one and goes on. *)
Lemma query_rag_skips_ahead_example :
  let rs := [(0.5%float, "a", demo_chunk 20000);
             (0.5%float, "b", demo_chunk 15000);
             (0.5%float, "c", demo_chunk 100)] in
  snd (query_rag demo_request demo_top_n (demo_agent rs) "q")
  = Ok (format_prompt
          (join SEPARATOR [format_entry "a" (demo_chunk 20000);
                           format_entry "c" (demo_chunk 100)]) "q").
Proof. apply ok_string_eqb_sound. vm_compute. reflexivity. Qed.

(** C2 (as amended): [query_rag] drops a result only when its score is
    strictly greater than 0.9.  Take any result [(score, name, chunk)] of the
    ranked list, after the results [pre] and before [post].  If [score > 0.9]
    is false and its chunk fits in what [pre] left of the 30000 budget, its
    entry is in the context, after the entries admitted from [pre] and
    before those admitted from [post].  If [score > 0.9], it is left out and
    the rest of the scan is as if it were not there.  A score of exactly 0.9,
    and one of 0.899, are not greater than 0.9. *)
Theorem query_rag_threshold_inclusive
    {Agent Index Message Request Error : Type}
    (build_request : string -> nat -> result Request Error)
    (top_n : Index -> Request -> result (list SearchResult) Error)
    (self : RigAgent Agent Index Message) query req pre score name chunk post :
  build_request query 30 = Ok req ->
  top_n (index self) req = Ok (pre ++ (score, name, chunk) :: post) ->
  (PrimFloat.ltb 0.9%float score = false ->
   fst (assemble pre 0 []) + String.length (content chunk) <= MAX_CHAR_LEN ->
   snd (query_rag build_request top_n self query)
   = Ok (format_prompt
           (join SEPARATOR
              (snd (assemble pre 0 []) ++ format_entry name chunk
                 :: snd (assemble post (fst (assemble pre 0 [])
                                        + String.length (content chunk)) [])))
           query))
  /\ (PrimFloat.ltb 0.9%float score = true ->
      snd (query_rag build_request top_n self query)
      = Ok (format_prompt
              (join SEPARATOR
                 (snd (assemble pre 0 [])
                    ++ snd (assemble post (fst (assemble pre 0 [])) [])))
              query))
  /\ PrimFloat.ltb 0.9%float 0.9%float = false
  /\ PrimFloat.ltb 0.9%float 0.899%float = false.
Proof.
  intros Hreq Hsearch.
  rewrite (query_rag_results _ _ self query req _ Hreq Hsearch)
    by (destruct pre; discriminate).
  simpl snd. rewrite assemble_app.
  destruct (assemble pre 0 []) as [n ctx]. simpl fst; simpl snd.
  split; [| split; [| split; reflexivity]].
  - intros Hs Hfit. cbn [assemble]. rewrite Hs.
    replace (Nat.ltb MAX_CHAR_LEN (String.length (content chunk) + n))
      with false by (symmetry; apply Nat.ltb_ge; lia).
    rewrite assemble_context, Nat.add_comm, <- app_assoc. reflexivity.
  - intros Hs. cbn [assemble]. rewrite Hs.
    rewrite assemble_context. reflexivity.
Qed.

Lemma query_rag_threshold_inclusive_witness :
  demo_request "q" 30 = Ok "q" /\
  demo_top_n threshold_results "q"
    = Ok (threshold_pre ++ (0.9%float, "b", demo_chunk 100) :: threshold_post) /\
  PrimFloat.ltb 0.9%float 0.9%float = false /\
  fst (assemble threshold_pre 0 []) + String.length (content (demo_chunk 100))
    <= MAX_CHAR_LEN /\
  snd (query_rag demo_request demo_top_n (demo_agent threshold_results) "q")
  = Ok (format_prompt
          (join SEPARATOR
             (snd (assemble threshold_pre 0 [])
                ++ format_entry "b" (demo_chunk 100)
                :: snd (assemble threshold_post
                          (fst (assemble threshold_pre 0 [])
                           + String.length (content (demo_chunk 100))) [])))
          "q").
Proof.
  do 3 (split; [reflexivity |]).
  split; [apply Nat.leb_le; vm_compute; reflexivity |].
  apply (proj1 (query_rag_threshold_inclusive demo_request demo_top_n
                  (demo_agent threshold_results) "q" "q" threshold_pre 0.9%float
                  "b" (demo_chunk 100) threshold_post eq_refl eq_refl));
    [reflexivity | apply Nat.leb_le; vm_compute; reflexivity].
Defined.

(** C2 counterexample: a result scored exactly 0.9 is included in the
    assembled context. *)
Lemma query_rag_keeps_score_at_threshold :
  snd (query_rag demo_request demo_top_n
         (demo_agent [(0.9%float, "doc", demo_chunk 3)]) "q")
  = Ok (format_prompt (format_entry "doc" (demo_chunk 3)) "q").
Proof. vm_compute. reflexivity. Qed.

(** C5: when the search succeeds with no result, [query_rag] returns the
    query itself, unchanged, as a success, and leaves the agent as it was. *)
Theorem query_rag_empty_passthrough
    {Agent Index Message Request Error : Type}
    (build_request : string -> nat -> result Request Error)
    (top_n : Index -> Request -> result (list SearchResult) Error)
    (self : RigAgent Agent Index Message) query req :
  build_request query 30 = Ok req ->
  top_n (index self) req = Ok [] ->
  query_rag build_request top_n self query = (self, Ok query).
Proof.
  intros Hreq Hsearch. unfold query_rag. now rewrite Hreq, Hsearch.
Qed.

Lemma query_rag_empty_passthrough_witness :
  demo_request "what is a pool" 30 = Ok "what is a pool" /\
  demo_top_n [] "what is a pool" = Ok [] /\
  query_rag demo_request demo_top_n (demo_agent []) "what is a pool"
  = (demo_agent [], Ok "what is a pool").
Proof.
  split; [reflexivity |]. split; [reflexivity |].
  apply (query_rag_empty_passthrough demo_request demo_top_n (demo_agent [])
           "what is a pool" "what is a pool"); reflexivity.
Defined.

(** C6: when the search returns a non-empty result list, [query_rag] empties
    the history and keeps the agent and the index as they were; the history
    is the only field it changes. *)
Theorem query_rag_clears_only_history
    {Agent Index Message Request Error : Type}
    (build_request : string -> nat -> result Request Error)
    (top_n : Index -> Request -> result (list SearchResult) Error)
    (self : RigAgent Agent Index Message) query req rs :
  build_request query 30 = Ok req ->
  top_n (index self) req = Ok rs ->
  rs <> [] ->
  fst (query_rag build_request top_n self query)
  = {| agent := agent self; index := index self; history := [] |}.
Proof.
  intros Hreq Hsearch Hne.
  now rewrite (query_rag_results _ _ self query req rs Hreq Hsearch Hne).
Qed.

Lemma query_rag_clears_only_history_witness :
  demo_request "q" 30 = Ok "q" /\
  demo_top_n [(0.2%float, "doc", demo_chunk 5)] "q"
    = Ok [(0.2%float, "doc", demo_chunk 5)] /\
  [(0.2%float, "doc", demo_chunk 5)] <> [] /\
  fst (query_rag demo_request demo_top_n
         (demo_agent [(0.2%float, "doc", demo_chunk 5)]) "q")
  = {| agent := tt; index := [(0.2%float, "doc", demo_chunk 5)];
       history := [] |}.
Proof.
  split; [reflexivity |]. split; [reflexivity |]. split; [discriminate |].
  apply (query_rag_clears_only_history demo_request demo_top_n
           (demo_agent [(0.2%float, "doc", demo_chunk 5)]) "q" "q"
           [(0.2%float, "doc", demo_chunk 5)]);
    [reflexivity | reflexivity | discriminate].
Defined.

(** C10: when the search returns results but every one is rejected (score
    above 0.9, or a chunk longer than the whole budget), [query_rag] still
    clears the history and returns the wrapped prompt with an empty context
    block, which differs from the bare query. *)
Theorem query_rag_all_filtered_wraps
    {Agent Index Message Request Error : Type}
    (build_request : string -> nat -> result Request Error)
    (top_n : Index -> Request -> result (list SearchResult) Error)
    (self : RigAgent Agent Index Message) query req rs :
  build_request query 30 = Ok req ->
  top_n (index self) req = Ok rs ->
  rs <> [] ->
  Forall (fun '(score, _, chunk) =>
            PrimFloat.ltb 0.9%float score = true
            \/ MAX_CHAR_LEN < String.length (content chunk)) rs ->
  query_rag build_request top_n self query
  = ({| agent := agent self; index := index self; history := [] |},
     Ok (format_prompt EmptyString query))
  /\ format_prompt EmptyString query <> query.
Proof.
  intros Hreq Hsearch Hne Hall. split.
  - rewrite (query_rag_results _ _ self query req rs Hreq Hsearch Hne).
    now rewrite (assemble_all_rejected rs Hall 0 []).
  - intro Heq. apply (f_equal String.length) in Heq.
    unfold format_prompt in Heq. rewrite !length_append in Heq.
    simpl in Heq. lia.
Qed.

Lemma query_rag_all_filtered_wraps_witness :
  demo_request "q" 30 = Ok "q" /\
  demo_top_n [(0.95%float, "doc", demo_chunk 5)] "q"
    = Ok [(0.95%float, "doc", demo_chunk 5)] /\
  [(0.95%float, "doc", demo_chunk 5)] <> [] /\
  Forall (fun '(score, _, chunk) =>
            PrimFloat.ltb 0.9%float score = true
            \/ MAX_CHAR_LEN < String.length (content chunk))
         [(0.95%float, "doc", demo_chunk 5)] /\
  (query_rag demo_request demo_top_n
     (demo_agent [(0.95%float, "doc", demo_chunk 5)]) "q"
   = ({| agent := tt; index := [(0.95%float, "doc", demo_chunk 5)];
         history := [] |}, Ok (format_prompt EmptyString "q"))
   /\ format_prompt EmptyString "q" <> "q").
Proof.
  assert (Hall : Forall (fun '(score, _, chunk) =>
            PrimFloat.ltb 0.9%float score = true
            \/ MAX_CHAR_LEN < String.length (content chunk))
         [(0.95%float, "doc", demo_chunk 5)])
    by (constructor; [left; reflexivity | constructor]).
  split; [reflexivity |]. split; [reflexivity |]. split; [discriminate |].
  split; [exact Hall |].
  apply (query_rag_all_filtered_wraps demo_request demo_top_n
           (demo_agent [(0.95%float, "doc", demo_chunk 5)]) "q" "q"
           [(0.95%float, "doc", demo_chunk 5)]);
    [reflexivity | reflexivity | discriminate | exact Hall].
Defined.

(** ** Claims about the REPL loop *)

(** C3 (as amended): [start_repl] has no fallback for a failed retrieval:
    when [query_rag] fails on a line, no request at all is sent to the
    completion agent in that turn (neither the augmented nor the bare
    query). *)
Theorem start_repl_no_fallback_on_retrieval_error
    {Agent Index Message Request Error PromptError : Type}
    (build_request : string -> nat -> result Request Error)
    (top_n : Index -> Request -> result (list SearchResult) Error)
    (prompt : Agent -> string -> list Message ->
              list Message * result string PromptError)
    (show_prompt_error : PromptError -> string)
    (self : RigAgent Agent Index Message) history line e :
  snd (query_rag build_request top_n self line) = Err e ->
  forall msg, ~ In (Prompted msg)
    (fst (repl_iter build_request top_n prompt show_prompt_error
            self history (Ok line))).
Proof.
  intros Hfail msg. unfold repl_iter.
  destruct (string_dec (trim line) "quit"); [simpl; tauto |].
  destruct (query_rag build_request top_n self line) as [self' r].
  simpl in Hfail. subst r. simpl.
  intros [H | []]. discriminate.
Qed.

Lemma start_repl_no_fallback_on_retrieval_error_witness :
  snd (query_rag demo_request failing_top_n (demo_agent []) "what is a pool")
    = Err "connection refused" /\
  ~ In (Prompted "what is a pool")
    (fst (repl_iter demo_request failing_top_n demo_prompt demo_show
            (demo_agent []) [] (Ok "what is a pool"))).
Proof.
  split; [reflexivity |].
  apply (start_repl_no_fallback_on_retrieval_error demo_request failing_top_n
           demo_prompt demo_show (demo_agent []) [] "what is a pool"
           "connection refused"); reflexivity.
Defined.

(** C3 counterexample: the search fails on the line ["what is a pool"];
    the turn prints the processing message and leaves [start_repl] with the
    error, without sending the unaugmented query. *)
Lemma start_repl_retrieval_error_not_recovered :
  repl_iter demo_request failing_top_n demo_prompt demo_show
    (demo_agent []) [] (Ok "what is a pool")
  = ([Printed PROCESSING_MESSAGE], Return "connection refused").
Proof. reflexivity. Qed.

(** C7: on an end-of-input signal ([ReadlineError::Eof]) the loop does not
    end: each iteration prints the error and continues, however many times
    [readline] reports it. *)
Theorem start_repl_continues_on_eof
    {Agent Index Message Request Error PromptError : Type}
    (build_request : string -> nat -> result Request Error)
    (top_n : Index -> Request -> result (list SearchResult) Error)
    (prompt : Agent -> string -> list Message ->
              list Message * result string PromptError)
    (show_prompt_error : PromptError -> string)
    (self : RigAgent Agent Index Message) history (n : nat) :
  repl_iter build_request top_n prompt show_prompt_error self history (Err Eof)
  = ([Printed ("read line error: " ++ "EOF")], Continue self history)
  /\ snd (repl_loop build_request top_n prompt show_prompt_error
            self history (repeat (Err Eof) n))
     = Running self history.
Proof.
  split; [reflexivity |].
  induction n as [| n IH]; [reflexivity |].
  simpl. destruct (repl_loop build_request top_n prompt show_prompt_error
                     self history (repeat (Err Eof) n)) as [out st] eqn:E.
  exact IH.
Qed.

(** ** Claims about ingestion *)

Lemma ingest_entries_ok_entries {Error : Type} read_to_string markdown_chunks
    (code_splitter_new : result (string -> list string) Error) es :
  forall self,
    ingest_entries read_to_string markdown_chunks code_splitter_new self es
    = ingest_entries read_to_string markdown_chunks code_splitter_new self
        (map Ok (ok_entries es)).
Proof.
  induction es as [| [file | err] es IH]; intro self; [reflexivity | | apply IH].
  simpl. destruct (is_file file); [| apply IH].
  destruct (ingest_entry _ _ _ self file); [apply IH | reflexivity].
Qed.

Lemma ingest_dirs_ok_entries {Error : Type} walk walk' read_to_string
    markdown_chunks (code_splitter_new : result (string -> list string) Error) :
  (forall dir, ok_entries (walk dir) = ok_entries (walk' dir)) ->
  forall dirs self,
    ingest_dirs walk read_to_string markdown_chunks code_splitter_new self dirs
    = ingest_dirs walk' read_to_string markdown_chunks code_splitter_new self dirs.
Proof.
  intros Hw dirs. induction dirs as [| d dirs IH]; intro self; [reflexivity |].
  simpl. rewrite (ingest_entries_ok_entries _ _ _ (walk d)),
                 (ingest_entries_ok_entries _ _ _ (walk' d)), Hw.
  destruct (ingest_entries _ _ _ self _); [apply IH | reflexivity].
Qed.

Lemma ingest_dirs_app {Error : Type} walk read_to_string markdown_chunks
    (code_splitter_new : result (string -> list string) Error) self ds1 ds2 :
  ingest_dirs walk read_to_string markdown_chunks code_splitter_new self (ds1 ++ ds2)
  = match ingest_dirs walk read_to_string markdown_chunks code_splitter_new self ds1 with
    | Err e => Err e
    | Ok self => ingest_dirs walk read_to_string markdown_chunks code_splitter_new self ds2
    end.
Proof.
  revert self. induction ds1 as [| d ds1 IH]; intro self; [reflexivity |].
  simpl. destruct (ingest_entries _ _ _ self (walk d)); [apply IH | reflexivity].
Qed.

Lemma ingest_entries_app {Error : Type} read_to_string markdown_chunks
    (code_splitter_new : result (string -> list string) Error) self es1 es2 :
  ingest_entries read_to_string markdown_chunks code_splitter_new self (es1 ++ es2)
  = match ingest_entries read_to_string markdown_chunks code_splitter_new self es1 with
    | Err e => Err e
    | Ok self => ingest_entries read_to_string markdown_chunks code_splitter_new self es2
    end.
Proof.
  revert self. induction es1 as [| [file | err] es1 IH]; intro self; [reflexivity | |].
  - simpl. destruct (is_file file); [| apply IH].
    destruct (ingest_entry _ _ _ self file); [apply IH | reflexivity].
  - apply IH.
Qed.

(** C4 (as amended): ingestion does not isolate per-file failures.  When a
    regular [.md] or [.sol] file that the walk reaches cannot be read,
    [ingest_docs] returns that read error instead of a builder: the files
    after it, in that directory and in later ones, are not ingested.  A
    failure to build the Solidity splitter for a [.sol] file aborts it in the
    same way.  The errors of the directory walk are the only ones skipped
    silently: the outcome depends on the walk only through the entries it
    yields, whatever errors come between them. *)
Theorem ingest_docs_read_error_aborts {Error : Type} :
  (forall walk read_to_string markdown_chunks
     (code_splitter_new : result (string -> list string) Error)
     self ds1 d ds2 b1 pre file post b2 e,
   rag_directories (cfg self) = ds1 ++ d :: ds2 ->
   ingest_dirs walk read_to_string markdown_chunks code_splitter_new self ds1 = Ok b1 ->
   walk d = pre ++ Ok file :: post ->
   ingest_entries read_to_string markdown_chunks code_splitter_new b1 pre = Ok b2 ->
   is_file file = true ->
   extension (entry_file_name file) = Some MD_EXTENSION
   \/ extension (entry_file_name file) = Some SOL_EXTENSION ->
   read_to_string (entry_path file) = Err e ->
   ingest_docs walk read_to_string markdown_chunks code_splitter_new self = Err e)
  /\ (forall walk read_to_string markdown_chunks
        (code_splitter_new : result (string -> list string) Error)
        self ds1 d ds2 b1 pre file post b2 file_str e,
      rag_directories (cfg self) = ds1 ++ d :: ds2 ->
      ingest_dirs walk read_to_string markdown_chunks code_splitter_new self ds1 = Ok b1 ->
      walk d = pre ++ Ok file :: post ->
      ingest_entries read_to_string markdown_chunks code_splitter_new b1 pre = Ok b2 ->
      is_file file = true ->
      extension (entry_file_name file) = Some SOL_EXTENSION ->
      read_to_string (entry_path file) = Ok file_str ->
      code_splitter_new = Err e ->
      ingest_docs walk read_to_string markdown_chunks code_splitter_new self = Err e)
  /\ (forall walk walk' read_to_string markdown_chunks
        (code_splitter_new : result (string -> list string) Error) self,
      (forall dir, ok_entries (walk dir) = ok_entries (walk' dir)) ->
      ingest_docs walk read_to_string markdown_chunks code_splitter_new self
      = ingest_docs walk' read_to_string markdown_chunks code_splitter_new self).
Proof.
  split; [| split].
  - intros walk read_to_string markdown_chunks code_splitter_new
      self ds1 d ds2 b1 pre file post b2 e
      Hdirs Hds1 Hwalk Hpre Hfile Hext Hread.
    unfold ingest_docs. rewrite Hdirs, ingest_dirs_app, Hds1. simpl.
    rewrite Hwalk, ingest_entries_app, Hpre. simpl. rewrite Hfile.
    unfold ingest_entry.
    destruct Hext as [Hext | Hext]; rewrite Hext; simpl; rewrite Hread; reflexivity.
  - intros walk read_to_string markdown_chunks code_splitter_new
      self ds1 d ds2 b1 pre file post b2 file_str e
      Hdirs Hds1 Hwalk Hpre Hfile Hext Hread Hsplit.
    unfold ingest_docs. rewrite Hdirs, ingest_dirs_app, Hds1. simpl.
    rewrite Hwalk, ingest_entries_app, Hpre. simpl. rewrite Hfile.
    unfold ingest_entry. rewrite Hext. simpl. rewrite Hread.
    unfold ingest_solidity_file. rewrite Hsplit. reflexivity.
  - intros walk walk' read_to_string markdown_chunks code_splitter_new self Hw.
    unfold ingest_docs. now apply ingest_dirs_ok_entries.
Qed.

Lemma ingest_docs_read_error_aborts_witness :
  ingest_docs (demo_walk [broken_md_entry; pool_sol_entry]) demo_read
    whole_file demo_code_splitter (RAGBuilder_new (demo_config ["docs"]))
  = Err "permission denied" /\
  ingest_docs (demo_walk [pool_sol_entry]) demo_read
    whole_file failing_code_splitter (RAGBuilder_new (demo_config ["docs"]))
  = Err "incompatible language version" /\
  ingest_docs (erroring_walk [pool_sol_entry]) demo_read
    whole_file demo_code_splitter (RAGBuilder_new (demo_config ["docs"]))
  = ingest_docs (demo_walk [pool_sol_entry]) demo_read
      whole_file demo_code_splitter (RAGBuilder_new (demo_config ["docs"])).
Proof.
  destruct (@ingest_docs_read_error_aborts string) as [Hread [Hsplit Hwalk]].
  split; [| split].
  - apply (Hread (demo_walk [broken_md_entry; pool_sol_entry])
             demo_read whole_file demo_code_splitter
             (RAGBuilder_new (demo_config ["docs"])) [] "docs" []
             (RAGBuilder_new (demo_config ["docs"])) [] broken_md_entry
             [Ok pool_sol_entry] (RAGBuilder_new (demo_config ["docs"]))
             "permission denied");
      [reflexivity | reflexivity | reflexivity | reflexivity | reflexivity
      | left; reflexivity | reflexivity].
  - apply (Hsplit (demo_walk [pool_sol_entry])
             demo_read whole_file failing_code_splitter
             (RAGBuilder_new (demo_config ["docs"])) [] "docs" []
             (RAGBuilder_new (demo_config ["docs"])) [] pool_sol_entry []
             (RAGBuilder_new (demo_config ["docs"])) "contract A {}"
             "incompatible language version");
      reflexivity.
  - apply Hwalk. intro dir. reflexivity.
Defined.

(** C4 counterexample: in a directory holding an unreadable [broken.md] and
    a readable [Pool.sol], ingestion fails as a whole with the read error;
    the chunks of [Pool.sol] are not produced. *)
Lemma ingest_docs_unreadable_file_aborts_all :
  ingest_docs (demo_walk [broken_md_entry; pool_sol_entry]) demo_read
    whole_file demo_code_splitter (RAGBuilder_new (demo_config ["docs"]))
  = Err "permission denied".
Proof. reflexivity. Qed.

(** C8: extension routing of a visited file.  A [.md] file is read and
    split by the Markdown splitter only; a [.sol] file is read and split by
    the code splitter only; any other file (other extension or none) is not
    read, adds no chunk and raises no error. *)
Theorem ingest_entry_routes_by_extension {Error : Type}
    read_to_string markdown_chunks
    (code_splitter_new : result (string -> list string) Error) self file rest :
  let name := debug_os_str (entry_file_name file) in
  (extension (entry_file_name file) = Some MD_EXTENSION ->
   ingest_entry read_to_string markdown_chunks code_splitter_new self file
   = match read_to_string (entry_path file) with
     | Err e => Err e
     | Ok file_str =>
         Ok {| docs := docs self ++ map (chunk_doc name) (markdown_chunks file_str);
               cfg := cfg self |}
     end) /\
  (extension (entry_file_name file) = Some SOL_EXTENSION ->
   ingest_entry read_to_string markdown_chunks code_splitter_new self file
   = match read_to_string (entry_path file) with
     | Err e => Err e
     | Ok file_str =>
         match code_splitter_new with
         | Err e => Err e
         | Ok code_chunks =>
             Ok {| docs := docs self ++ map (chunk_doc name) (code_chunks file_str);
                   cfg := cfg self |}
         end
     end) /\
  (extension (entry_file_name file) <> Some MD_EXTENSION ->
   extension (entry_file_name file) <> Some SOL_EXTENSION ->
   ingest_entry read_to_string markdown_chunks code_splitter_new self file = Ok self
   /\ ingest_entries read_to_string markdown_chunks code_splitter_new self
        (Ok file :: rest)
      = ingest_entries read_to_string markdown_chunks code_splitter_new self rest).
Proof.
  intro name. unfold ingest_entry. fold name.
  split; [| split].
  - intro Hext. rewrite Hext. reflexivity.
  - intro Hext. rewrite Hext. reflexivity.
  - intros Hmd Hsol.
    assert (Hother : ingest_entry read_to_string markdown_chunks code_splitter_new
                       self file = Ok self).
    { unfold ingest_entry.
      destruct (extension (entry_file_name file)) as [ext |]; [| reflexivity].
      destruct (string_dec ext MD_EXTENSION) as [-> | _]; [now contradiction Hmd |].
      destruct (string_dec ext SOL_EXTENSION) as [-> | _]; [now contradiction Hsol |].
      reflexivity. }
    split; [exact Hother |].
    simpl. destruct (is_file file); [now rewrite Hother | reflexivity].
Qed.

Lemma ingest_entry_routes_by_extension_witness :
  extension (entry_file_name pool_sol_entry) = Some SOL_EXTENSION /\
  ingest_entry demo_read whole_file demo_code_splitter
    (RAGBuilder_new (demo_config ["docs"])) pool_sol_entry
  = match demo_read (entry_path pool_sol_entry) with
    | Err e => Err e
    | Ok file_str =>
        match demo_code_splitter with
        | Err e => Err e
        | Ok code_chunks =>
            Ok {| docs := docs (RAGBuilder_new (demo_config ["docs"]))
                          ++ map (chunk_doc (debug_os_str (entry_file_name pool_sol_entry)))
                                 (code_chunks file_str);
                  cfg := cfg (RAGBuilder_new (demo_config ["docs"])) |}
        end
    end.
Proof.
  split; [reflexivity |].
  apply (proj1 (proj2 (ingest_entry_routes_by_extension demo_read whole_file
                         demo_code_splitter (RAGBuilder_new (demo_config ["docs"]))
                         pool_sol_entry []))).
  reflexivity.
Defined.

Lemma escape_debug_nonempty (c : ascii) : 1 <= String.length (escape_debug c).
Proof.
  unfold escape_debug.
  repeat match goal with |- context [if ?b then _ else _] => destruct b end;
    simpl; lia.
Qed.

Lemma length_list_ascii (s : string) :
  List.length (list_ascii_of_string s) = String.length s.
Proof. induction s; simpl; congruence. Qed.

Lemma escaped_length (l : list ascii) :
  List.length l <= String.length (String.concat "" (map escape_debug l)).
Proof.
  induction l as [| c [| c' rest] IH]; simpl; [lia | |].
  - apply escape_debug_nonempty.
  - rewrite length_append. simpl in IH.
    pose proof (escape_debug_nonempty c). lia.
Qed.

Lemma debug_os_str_length (name : string) :
  String.length name + 2 <= String.length (debug_os_str name).
Proof.
  unfold debug_os_str, DQ, chr. simpl. rewrite length_append. simpl.
  pose proof (escaped_length (list_ascii_of_string name)) as H.
  rewrite length_list_ascii in H. lia.
Qed.

(** C9: the name recorded in each chunk is [format!("{:?}", file_name)], the
    [Debug] rendering: the base name wrapped in double quotes, never the base
    name itself.  Ingesting [docs/Pool.sol] records the ten-byte name
    ["Pool.sol"] with its quotes. *)
Theorem ingest_docs_records_debug_name :
  (forall name, debug_os_str name <> name) /\
  ingest_docs (demo_walk [pool_sol_entry]) demo_read whole_file
    demo_code_splitter (RAGBuilder_new (demo_config ["docs"]))
  = Ok {| docs := [{| file_name := DQ ++ "Pool.sol" ++ DQ;
                      content := "contract A {}" |}];
          cfg := demo_config ["docs"] |}.
Proof.
  split; [| reflexivity].
  intros name Heq. pose proof (debug_os_str_length name) as H.
  rewrite Heq in H. lia.
Qed.

(** ** Further properties of [query_rag] *)

(** A failing [query_rag] (request construction or search) returns the
    agent untouched: the history is cleared only on a successful, non-empty
    search. *)
Theorem query_rag_error_keeps_agent
    {Agent Index Message Request Error : Type}
    (build_request : string -> nat -> result Request Error)
    (top_n : Index -> Request -> result (list SearchResult) Error)
    (self : RigAgent Agent Index Message) query e :
  snd (query_rag build_request top_n self query) = Err e ->
  fst (query_rag build_request top_n self query) = self.
Proof.
  unfold query_rag.
  destruct (build_request query 30) as [req | e']; [| reflexivity].
  destruct (top_n (index self) req) as [[| r rs] | e']; simpl;
    [discriminate | discriminate | reflexivity].
Qed.

Lemma query_rag_error_keeps_agent_witness :
  snd (query_rag demo_request failing_top_n (demo_agent []) "q")
    = Err "connection refused" /\
  fst (query_rag demo_request failing_top_n (demo_agent []) "q") = demo_agent [].
Proof.
  split; [reflexivity |].
  apply (query_rag_error_keeps_agent demo_request failing_top_n (demo_agent [])
           "q" "connection refused").
  reflexivity.
Defined.

Lemma assemble_admits_subsequence_from (rs : list SearchResult) :
  forall ctx_size context,
    ctx_size <= MAX_CHAR_LEN ->
    exists admitted,
      subseq admitted rs /\
      Forall (fun '(score, _, _) => PrimFloat.ltb 0.9%float score = false) admitted /\
      fst (assemble rs ctx_size context) = ctx_size + total_length admitted /\
      ctx_size + total_length admitted <= MAX_CHAR_LEN /\
      snd (assemble rs ctx_size context) = context ++ map entry_of admitted.
Proof.
  induction rs as [| [[score name] chunk] rest IH]; intros ctx_size context Hle.
  - exists []. simpl. rewrite app_nil_r.
    repeat split; [constructor | constructor | lia | lia].
  - simpl. destruct (PrimFloat.ltb 0.9%float score) eqn:Hs.
    + destruct (IH ctx_size context Hle) as (adm & Hsub & Hok & Hfst & Hbud & Hsnd).
      exists adm. repeat split; auto. now constructor.
    + destruct (Nat.ltb MAX_CHAR_LEN (String.length (content chunk) + ctx_size)) eqn:Hb.
      * destruct (IH ctx_size context Hle) as (adm & Hsub & Hok & Hfst & Hbud & Hsnd).
        exists adm. repeat split; auto. now constructor.
      * apply Nat.ltb_ge in Hb.
        destruct (IH (ctx_size + String.length (content chunk))
                     (context ++ [format_entry name chunk]) ltac:(lia))
          as (adm & Hsub & Hok & Hfst & Hbud & Hsnd).
        exists ((score, name, chunk) :: adm). simpl.
        repeat split.
        -- now constructor.
        -- now constructor.
        -- rewrite Hfst. lia.
        -- lia.
        -- rewrite Hsnd, <- app_assoc. reflexivity.
Qed.

Lemma assemble_extends (rs : list SearchResult) :
  forall ctx_size context, exists more,
    snd (assemble rs ctx_size context) = context ++ more.
Proof.
  induction rs as [| [[score name] chunk] rest IH]; intros ctx_size context.
  - exists []. now rewrite app_nil_r.
  - simpl. destruct (PrimFloat.ltb 0.9%float score); [apply IH |].
    destruct (Nat.ltb MAX_CHAR_LEN (String.length (content chunk) + ctx_size));
      [apply IH |].
    destruct (IH (ctx_size + String.length (content chunk))
                 (context ++ [format_entry name chunk])) as [more Hm].
    exists (format_entry name chunk :: more). now rewrite Hm, <- app_assoc.
Qed.

(** The context block of [query_rag] is made of a subsequence of the ranked
    results, kept in ranked order: no admitted result has a score above 0.9
    ([score > 0.9] is false for it, which lets a NaN score through), and
    their lengths add up to the final [ctx_size], which is at most 30000. *)
Theorem assemble_admits_subsequence (rs : list SearchResult) :
  exists admitted,
    subseq admitted rs /\
    Forall (fun '(score, _, _) => PrimFloat.ltb 0.9%float score = false) admitted /\
    admitted_size rs = total_length admitted /\
    total_length admitted <= MAX_CHAR_LEN /\
    snd (assemble rs 0 []) = map entry_of admitted.
Proof.
  destruct (assemble_admits_subsequence_from rs 0 [] ltac:(unfold MAX_CHAR_LEN; lia))
    as (adm & Hsub & Hok & Hfst & Hbud & Hsnd).
  exists adm. unfold admitted_size. repeat split; auto; lia.
Qed.

(** Greedy stability: appending lower-ranked results never removes or
    reorders what the higher-ranked ones put in the context; the context
    for [rs] is a prefix of the context for [rs ++ rs']. *)
Theorem assemble_prefix_stable (rs rs' : list SearchResult) :
  exists more,
    snd (assemble (rs ++ rs') 0 []) = snd (assemble rs 0 []) ++ more.
Proof.
  rewrite assemble_app.
  destruct (assemble rs 0 []) as [ctx_size context]. simpl.
  apply assemble_extends.
Qed.

(** When every result passes the score filter and all of them fit in the
    budget together, the context holds every result, in ranked order. *)
Theorem assemble_all_fit (rs : list SearchResult) :
  Forall (fun '(score, _, _) => PrimFloat.ltb 0.9%float score = false) rs ->
  total_length rs <= MAX_CHAR_LEN ->
  assemble rs 0 [] = (total_length rs, map entry_of rs).
Proof.
  intros Hok Hlen.
  enough (H : forall ctx_size context,
             ctx_size + total_length rs <= MAX_CHAR_LEN ->
             assemble rs ctx_size context
             = (ctx_size + total_length rs, context ++ map entry_of rs))
    by (apply H; lia).
  induction Hok as [| [[score name] chunk] rest Hs _ IH]; intros ctx_size context Hle.
  - simpl. now rewrite Nat.add_0_r, app_nil_r.
  - simpl in Hle |- *. rewrite Hs.
    replace (Nat.ltb MAX_CHAR_LEN (String.length (content chunk) + ctx_size))
      with false by (symmetry; apply Nat.ltb_ge; lia).
    rewrite IH by lia. rewrite <- app_assoc, Nat.add_assoc. reflexivity.
Qed.

Lemma assemble_all_fit_witness :
  Forall (fun '(score, _, _) => PrimFloat.ltb 0.9%float score = false)
    [(0.1%float, "a", demo_chunk 2); (0.3%float, "b", demo_chunk 4)] /\
  total_length [(0.1%float, "a", demo_chunk 2); (0.3%float, "b", demo_chunk 4)]
    <= MAX_CHAR_LEN /\
  assemble [(0.1%float, "a", demo_chunk 2); (0.3%float, "b", demo_chunk 4)] 0 []
  = (total_length [(0.1%float, "a", demo_chunk 2); (0.3%float, "b", demo_chunk 4)],
     map entry_of [(0.1%float, "a", demo_chunk 2); (0.3%float, "b", demo_chunk 4)]).
Proof.
  assert (Hok : Forall (fun '(score, _, _) => PrimFloat.ltb 0.9%float score = false)
    [(0.1%float, "a", demo_chunk 2); (0.3%float, "b", demo_chunk 4)])
    by (repeat constructor).
  assert (Hlen : total_length [(0.1%float, "a", demo_chunk 2);
                               (0.3%float, "b", demo_chunk 4)] <= MAX_CHAR_LEN)
    by (apply Nat.leb_le; vm_compute; reflexivity).
  split; [exact Hok |]. split; [exact Hlen |].
  exact (assemble_all_fit _ Hok Hlen).
Defined.

(** ** Further properties of the REPL loop *)

(** The loop leaves [start_repl] in only two ways: with [Ok(())] after a
    line that trims to ["quit"], or with the error of a failed [query_rag]
    on some other line.  Readline errors and completion errors never end
    it. *)
Theorem repl_loop_terminates_only_on_quit_or_retrieval_error
    {Agent Index Message Request Error PromptError : Type}
    (build_request : string -> nat -> result Request Error)
    (top_n : Index -> Request -> result (list SearchResult) Error)
    (prompt : Agent -> string -> list Message ->
              list Message * result string PromptError)
    (show_prompt_error : PromptError -> string) lines :
  forall (self : RigAgent Agent Index Message) history out r,
    repl_loop build_request top_n prompt show_prompt_error self history lines
    = (out, Terminated r) ->
    (r = Ok tt /\ exists line, In (Ok line) lines /\ trim line = "quit")
    \/ (exists e line (self' : RigAgent Agent Index Message),
          r = Err e /\ In (Ok line) lines /\ trim line <> "quit" /\
          snd (query_rag build_request top_n self' line) = Err e).
Proof.
  induction lines as [| l rest IH]; intros self history out r H; [discriminate |].
  simpl in H.
  destruct l as [line | rerr].
  - unfold repl_iter in H at 1.
    destruct (string_dec (trim line) "quit") as [Hq | Hq].
    + injection H as _ <-. left. split; [reflexivity |].
      exists line. split; [now left | exact Hq].
    + destruct (query_rag build_request top_n self line) as [self1 [q | e]] eqn:Hqr.
      * destruct (prompt (agent self1) q history) as [history1 reply].
        destruct (repl_loop build_request top_n prompt show_prompt_error
                    self1 history1 rest) as [out' st] eqn:Hrest.
        injection H as _ ->.
        destruct (IH _ _ _ _ Hrest) as [(-> & line' & Hin & Hq') |
                                        (e & line' & s' & -> & Hin & Hq' & He)].
        -- left. split; [reflexivity |]. exists line'. split; [now right | exact Hq'].
        -- right. exists e, line', s'. repeat split; auto. now right.
      * injection H as _ <-. right. exists e, line, self.
        repeat split; auto; [now left | now rewrite Hqr].
  - simpl in H.
    destruct (repl_loop build_request top_n prompt show_prompt_error
                self history rest) as [out' st] eqn:Hrest.
    injection H as _ ->.
    destruct (IH _ _ _ _ Hrest) as [(-> & line' & Hin & Hq') |
                                    (e & line' & s' & -> & Hin & Hq' & He)].
    + left. split; [reflexivity |]. exists line'. split; [now right | exact Hq'].
    + right. exists e, line', s'. repeat split; auto. now right.
Qed.

Lemma repl_loop_terminates_only_on_quit_or_retrieval_error_witness :
  repl_loop demo_request demo_top_n demo_prompt demo_show (demo_agent []) []
    [Err Eof; Ok "hello"; Ok " quit "]
  = ([Printed ("read line error: " ++ "EOF"); Printed PROCESSING_MESSAGE;
      Prompted "hello"; Printed (display demo_show (Ok "ok"))], Terminated (Ok tt)) /\
  ((Ok tt = @Ok unit string tt /\
    exists line, In (Ok line) [Err Eof; Ok "hello"; Ok " quit "] /\ trim line = "quit")
   \/ (exists e line (self' : RigAgent unit (list SearchResult) string),
         @Ok unit string tt = Err e /\ In (Ok line) [Err Eof; Ok "hello"; Ok " quit "] /\
         trim line <> "quit" /\
         snd (query_rag demo_request demo_top_n self' line) = Err e)).
Proof.
  assert (H : repl_loop demo_request demo_top_n demo_prompt demo_show (demo_agent []) []
    [Err Eof; Ok "hello"; Ok " quit "]
    = ([Printed ("read line error: " ++ "EOF"); Printed PROCESSING_MESSAGE;
        Prompted "hello"; Printed (display demo_show (Ok "ok"))], Terminated (Ok tt)))
    by reflexivity.
  split; [exact H |].
  exact (repl_loop_terminates_only_on_quit_or_retrieval_error demo_request demo_top_n
           demo_prompt demo_show _ (demo_agent []) [] _ (Ok tt) H).
Defined.

(** A completion failure is confined to its turn: the error is printed, the
    REPL history becomes what the completion call left in it, and the loop
    goes on. *)
Theorem repl_iter_completion_error_continues
    {Agent Index Message Request Error PromptError : Type}
    (build_request : string -> nat -> result Request Error)
    (top_n : Index -> Request -> result (list SearchResult) Error)
    (prompt : Agent -> string -> list Message ->
              list Message * result string PromptError)
    (show_prompt_error : PromptError -> string)
    (self self' : RigAgent Agent Index Message) history history' line query err :
  trim line <> "quit" ->
  query_rag build_request top_n self line = (self', Ok query) ->
  prompt (agent self') query history = (history', Err err) ->
  repl_iter build_request top_n prompt show_prompt_error self history (Ok line)
  = ([Printed PROCESSING_MESSAGE; Prompted query;
      Printed ("Sorry there was an error processing your input: "
               ++ show_prompt_error err)],
     Continue self' history').
Proof.
  intros Hq Hqr Hp. unfold repl_iter.
  destruct (string_dec (trim line) "quit"); [contradiction |].
  now rewrite Hqr, Hp.
Qed.

Lemma repl_iter_completion_error_continues_witness :
  trim "hello" <> "quit" /\
  query_rag demo_request demo_top_n (demo_agent []) "hello"
    = (demo_agent [], Ok "hello") /\
  failing_prompt (agent (demo_agent [])) "hello" [] = (["hello"], Err "overloaded") /\
  repl_iter demo_request demo_top_n failing_prompt demo_show (demo_agent []) []
    (Ok "hello")
  = ([Printed PROCESSING_MESSAGE; Prompted "hello";
      Printed ("Sorry there was an error processing your input: "
               ++ demo_show "overloaded")],
     Continue (demo_agent []) ["hello"]).
Proof.
  split; [discriminate |]. split; [reflexivity |]. split; [reflexivity |].
  apply (repl_iter_completion_error_continues demo_request demo_top_n failing_prompt
           demo_show (demo_agent []) (demo_agent []) [] ["hello"] "hello" "hello"
           "overloaded"); [discriminate | reflexivity | reflexivity].
Defined.

Lemma list_ascii_of_string_app (s1 s2 : string) :
  list_ascii_of_string (s1 ++ s2) = list_ascii_of_string s1 ++ list_ascii_of_string s2.
Proof. induction s1; simpl; congruence. Qed.

Lemma string_of_list_ascii_app (l1 l2 : list ascii) :
  string_of_list_ascii (l1 ++ l2)
  = (string_of_list_ascii l1 ++ string_of_list_ascii l2)%string.
Proof. induction l1; simpl; congruence. Qed.

Lemma trim_start_whitespace_prefix (ws s : string) :
  forallb is_whitespace (list_ascii_of_string ws) = true ->
  trim_start (ws ++ s) = trim_start s.
Proof.
  induction ws as [| c ws IH]; simpl; [reflexivity |].
  intro H. apply andb_prop in H as [Hc Hws]. rewrite Hc. now apply IH.
Qed.

(** The quit command is recognised through [trim]: ["quit"] with any ASCII
    whitespace around it ends the loop at once, printing nothing and
    sending nothing to the retrieval or completion services. *)
Theorem repl_iter_quit_with_whitespace
    {Agent Index Message Request Error PromptError : Type}
    (build_request : string -> nat -> result Request Error)
    (top_n : Index -> Request -> result (list SearchResult) Error)
    (prompt : Agent -> string -> list Message ->
              list Message * result string PromptError)
    (show_prompt_error : PromptError -> string)
    (self : RigAgent Agent Index Message) history ws1 ws2 :
  forallb is_whitespace (list_ascii_of_string ws1) = true ->
  forallb is_whitespace (list_ascii_of_string ws2) = true ->
  repl_iter build_request top_n prompt show_prompt_error self history
    (Ok (ws1 ++ "quit" ++ ws2)%string)
  = ([], Break).
Proof.
  intros H1 H2.
  assert (Htrim : trim (ws1 ++ "quit" ++ ws2) = "quit").
  { unfold trim. rewrite trim_start_whitespace_prefix by exact H1.
    simpl. rewrite <- !app_assoc. simpl.
    rewrite string_of_list_ascii_app.
    rewrite trim_start_whitespace_prefix.
    - reflexivity.
    - rewrite list_ascii_of_string_of_list_ascii.
      apply forallb_forall. intros c Hc. apply in_rev in Hc.
      rewrite forallb_forall in H2. now apply H2. }
  unfold repl_iter. rewrite Htrim. reflexivity.
Qed.

Lemma repl_iter_quit_with_whitespace_witness :
  forallb is_whitespace (list_ascii_of_string "  ") = true /\
  forallb is_whitespace (list_ascii_of_string NL) = true /\
  repl_iter demo_request demo_top_n demo_prompt demo_show (demo_agent []) []
    (Ok ("  " ++ "quit" ++ NL)%string) = ([], Break).
Proof.
  split; [reflexivity |]. split; [reflexivity |].
  apply repl_iter_quit_with_whitespace; reflexivity.
Defined.

(** ** Further properties of ingestion *)

Section IngestFacts.
Context {Error : Type}.
Variable walk : string -> list (result DirEntry Error).
Variable read_to_string : string -> result string Error.
Variable markdown_chunks : string -> list string.
Variable code_splitter_new : result (string -> list string) Error.

Lemma chunk_doc_fields name chunk :
  file_name (chunk_doc name chunk) = name /\ content (chunk_doc name chunk) = chunk.
Proof. split; reflexivity. Qed.

Lemma ingest_entry_ok self file b :
  ingest_entry read_to_string markdown_chunks code_splitter_new self file = Ok b ->
  cfg b = cfg self /\
  exists new, docs b = docs self ++ new /\
    forall c, In c new ->
      chunk_from_file read_to_string markdown_chunks code_splitter_new file c.
Proof.
  unfold ingest_entry.
  destruct (extension (entry_file_name file)) as [ext |] eqn:Hext;
    [| intro H; injection H as <-; split; [reflexivity |];
       exists []; split; [now rewrite app_nil_r | intros c []]].
  destruct (string_dec ext MD_EXTENSION) as [-> | Hmd].
  - destruct (read_to_string (entry_path file)) as [file_str | e] eqn:Hr;
      [| discriminate].
    unfold ingest_md_file. intro H. injection H as <-. split; [reflexivity |].
    eexists. split; [reflexivity |]. intros c Hc.
    apply in_map_iff in Hc as (x & <- & Hx).
    exists file_str. split; [exact Hr |]. split; [reflexivity |].
    left. split; [exact Hext | exact Hx].
  - destruct (string_dec ext SOL_EXTENSION) as [-> | Hsol].
    + destruct (read_to_string (entry_path file)) as [file_str | e] eqn:Hr;
        [| discriminate].
      unfold ingest_solidity_file.
      destruct code_splitter_new as [code_chunks | e] eqn:Hcs; [| discriminate].
      intro H. injection H as <-. split; [reflexivity |].
      eexists. split; [reflexivity |]. intros c Hc.
      apply in_map_iff in Hc as (x & <- & Hx).
      exists file_str. split; [exact Hr |]. split; [reflexivity |].
      right. split; [exact Hext |]. exists code_chunks. split; [reflexivity | exact Hx].
    + intro H. injection H as <-. split; [reflexivity |].
      exists []. split; [now rewrite app_nil_r | intros c []].
Qed.

Lemma ingest_entries_ok entries :
  forall self b,
    ingest_entries read_to_string markdown_chunks code_splitter_new self entries = Ok b ->
    cfg b = cfg self /\
    exists new, docs b = docs self ++ new /\
      forall c, In c new -> exists file,
        In (Ok file) entries /\ is_file file = true /\
        chunk_from_file read_to_string markdown_chunks code_splitter_new file c.
Proof.
  induction entries as [| [file | err] rest IH]; intros self b H; simpl in H.
  - injection H as <-. split; [reflexivity |].
    exists []. split; [now rewrite app_nil_r | intros c []].
  - destruct (is_file file) eqn:Hf.
    + destruct (ingest_entry read_to_string markdown_chunks code_splitter_new self file)
        as [b1 | e] eqn:He; [| discriminate].
      destruct (ingest_entry_ok _ _ _ He) as (Hcfg1 & new1 & Hdocs1 & Hnew1).
      destruct (IH _ _ H) as (Hcfg2 & new2 & Hdocs2 & Hnew2).
      split; [congruence |].
      exists (new1 ++ new2). split; [now rewrite Hdocs2, Hdocs1, app_assoc |].
      intros c Hc. apply in_app_or in Hc as [Hc | Hc].
      * exists file. split; [now left |]. auto.
      * destruct (Hnew2 c Hc) as (f & Hin & Hf' & Hp). exists f. split; [now right |]. auto.
    + destruct (IH _ _ H) as (Hcfg & new & Hdocs & Hnew).
      split; [exact Hcfg |]. exists new. split; [exact Hdocs |].
      intros c Hc. destruct (Hnew c Hc) as (f & Hin & Hf' & Hp).
      exists f. split; [now right |]. auto.
  - destruct (IH _ _ H) as (Hcfg & new & Hdocs & Hnew).
    split; [exact Hcfg |]. exists new. split; [exact Hdocs |].
    intros c Hc. destruct (Hnew c Hc) as (f & Hin & Hf' & Hp).
    exists f. split; [now right |]. auto.
Qed.

Lemma ingest_dirs_ok dirs :
  forall self b,
    ingest_dirs walk read_to_string markdown_chunks code_splitter_new self dirs = Ok b ->
    cfg b = cfg self /\
    exists new, docs b = docs self ++ new /\
      forall c, In c new -> exists dir file,
        In dir dirs /\ In (Ok file) (walk dir) /\ is_file file = true /\
        chunk_from_file read_to_string markdown_chunks code_splitter_new file c.
Proof.
  induction dirs as [| dir rest IH]; intros self b H; simpl in H.
  - injection H as <-. split; [reflexivity |].
    exists []. split; [now rewrite app_nil_r | intros c []].
  - destruct (ingest_entries read_to_string markdown_chunks code_splitter_new self (walk dir))
      as [b1 | e] eqn:He; [| discriminate].
    destruct (ingest_entries_ok _ _ _ He) as (Hcfg1 & new1 & Hdocs1 & Hnew1).
    destruct (IH _ _ H) as (Hcfg2 & new2 & Hdocs2 & Hnew2).
    split; [congruence |].
    exists (new1 ++ new2). split; [now rewrite Hdocs2, Hdocs1, app_assoc |].
    intros c Hc. apply in_app_or in Hc as [Hc | Hc].
    + destruct (Hnew1 c Hc) as (f & Hin & Hf & Hp).
      exists dir, f. repeat split; auto. now left.
    + destruct (Hnew2 c Hc) as (d & f & Hd & Hin & Hf & Hp).
      exists d, f. repeat split; auto. now right.
Qed.

(** A successful [ingest_docs] keeps the configuration and the chunks
    already in the builder, and only appends chunks that each come from a
    regular [.md] or [.sol] file reached by walking one of the configured
    directories: named after that file and holding one piece of its text as
    cut by the splitter its extension selects. *)
Theorem ingest_docs_chunk_provenance self b :
  ingest_docs walk read_to_string markdown_chunks code_splitter_new self = Ok b ->
  cfg b = cfg self /\
  exists new, docs b = docs self ++ new /\
    forall c, In c new -> exists dir file,
      In dir (rag_directories (cfg self)) /\ In (Ok file) (walk dir) /\
      is_file file = true /\
      chunk_from_file read_to_string markdown_chunks code_splitter_new file c.
Proof. apply ingest_dirs_ok. Qed.

Lemma ingest_entry_err self file e :
  ingest_entry read_to_string markdown_chunks code_splitter_new self file = Err e ->
  file_failure read_to_string code_splitter_new file e.
Proof.
  unfold ingest_entry, file_failure.
  destruct (extension (entry_file_name file)) as [ext |] eqn:Hext; [| discriminate].
  destruct (string_dec ext MD_EXTENSION) as [-> | Hmd].
  - destruct (read_to_string (entry_path file)) as [file_str | e'] eqn:Hr;
      [discriminate |].
    intro H. injection H as ->. left. auto.
  - destruct (string_dec ext SOL_EXTENSION) as [-> | Hsol]; [| discriminate].
    destruct (read_to_string (entry_path file)) as [file_str | e'] eqn:Hr.
    + unfold ingest_solidity_file.
      destruct code_splitter_new as [cs | e'] eqn:Hcs; [discriminate |].
      intro H. injection H as ->. right. auto.
    + intro H. injection H as ->. left. auto.
Qed.

(** [ingest_docs] fails only because of a regular [.md] or [.sol] file
    reached by the walk: its read failed, or, for a [.sol] file, the code
    splitter could not be built.  Walk errors, directories, other file
    types and other extensions never make it fail. *)
Theorem ingest_docs_failure_cause self e :
  ingest_docs walk read_to_string markdown_chunks code_splitter_new self = Err e ->
  exists dir file,
    In dir (rag_directories (cfg self)) /\ In (Ok file) (walk dir) /\
    is_file file = true /\ file_failure read_to_string code_splitter_new file e.
Proof.
  unfold ingest_docs. generalize (rag_directories (cfg self)) as dirs.
  intro dirs. revert self.
  induction dirs as [| dir rest IH]; intros self H; simpl in H; [discriminate |].
  destruct (ingest_entries read_to_string markdown_chunks code_splitter_new self (walk dir))
    as [b1 | e1] eqn:He.
  - destruct (IH _ H) as (d & f & Hd & Hin & Hf & Hp).
    exists d, f. repeat split; auto. now right.
  - injection H as <-. exists dir.
    enough (Hent : forall entries s,
               ingest_entries read_to_string markdown_chunks code_splitter_new s entries
               = Err e1 ->
               exists file, In (Ok file) entries /\ is_file file = true /\
                            file_failure read_to_string code_splitter_new file e1).
    { destruct (Hent _ _ He) as (f & Hin & Hf & Hp). exists f. repeat split; auto. now left. }
    induction entries as [| [file | err] es IHes]; intros s Hs; simpl in Hs;
      [discriminate | |].
    + destruct (is_file file) eqn:Hf.
      * destruct (ingest_entry read_to_string markdown_chunks code_splitter_new s file)
          as [s1 | e2] eqn:Hentry.
        -- destruct (IHes _ Hs) as (f & Hin & Hf' & Hp). exists f. split; [now right | auto].
        -- injection Hs as ->. exists file. split; [now left |]. split; [exact Hf |].
           now apply (ingest_entry_err s).
      * destruct (IHes _ Hs) as (f & Hin & Hf' & Hp). exists f. split; [now right | auto].
    + destruct (IHes _ Hs) as (f & Hin & Hf' & Hp). exists f. split; [now right | auto].
Qed.
End IngestFacts.

Lemma ingest_docs_chunk_provenance_witness :
  let self := RAGBuilder_new (demo_config ["docs"]) in
  let b := {| docs := [{| file_name := DQ ++ "Pool.sol" ++ DQ;
                          content := "contract A {}" |}];
              cfg := demo_config ["docs"] |} in
  ingest_docs (demo_walk [pool_sol_entry]) demo_read whole_file demo_code_splitter self
    = Ok b /\
  (cfg b = cfg self /\
   exists new, docs b = docs self ++ new /\
     forall c, In c new -> exists dir file,
       In dir (rag_directories (cfg self)) /\
       In (Ok file) (demo_walk [pool_sol_entry] dir) /\
       is_file file = true /\
       chunk_from_file demo_read whole_file demo_code_splitter file c).
Proof.
  intros self b.
  assert (H : ingest_docs (demo_walk [pool_sol_entry]) demo_read whole_file
                demo_code_splitter self = Ok b) by reflexivity.
  split; [exact H |].
  exact (ingest_docs_chunk_provenance (demo_walk [pool_sol_entry]) demo_read whole_file
           demo_code_splitter self b H).
Defined.

Lemma ingest_docs_failure_cause_witness :
  let self := RAGBuilder_new (demo_config ["docs"]) in
  ingest_docs (demo_walk [broken_md_entry; pool_sol_entry]) demo_read whole_file
    demo_code_splitter self = Err "permission denied" /\
  exists dir file,
    In dir (rag_directories (cfg self)) /\
    In (Ok file) (demo_walk [broken_md_entry; pool_sol_entry] dir) /\
    is_file file = true /\
    file_failure demo_read demo_code_splitter file "permission denied".
Proof.
  intro self.
  assert (H : ingest_docs (demo_walk [broken_md_entry; pool_sol_entry]) demo_read
                whole_file demo_code_splitter self = Err "permission denied")
    by reflexivity.
  split; [exact H |].
  exact (ingest_docs_failure_cause (demo_walk [broken_md_entry; pool_sol_entry])
           demo_read whole_file demo_code_splitter self "permission denied" H).
Defined.

(** ** Path extensions and recorded names *)

Lemma rsplit_no_dot (ext : list ascii) :
  ~ In "."%char ext ->
  forall rest acc,
    rsplit_once_dot_rev (rev ext ++ rest) acc = rsplit_once_dot_rev rest (ext ++ acc).
Proof.
  induction ext as [| x ext IH] using rev_ind; intros Hnd rest acc; [reflexivity |].
  rewrite rev_app_distr. simpl.
  destruct (ascii_dec x "."%char) as [-> | Hx].
  - exfalso. apply Hnd. apply in_or_app. right. now left.
  - rewrite IH by (intro Hin; apply Hnd; apply in_or_app; now left).
    now rewrite <- app_assoc.
Qed.

(** How [Path::extension] splits a file name, and so which files
    [ingest_docs] routes: a name [stem.ext] with a non-empty stem and no dot
    in [ext] has extension [ext] (so [notes.md.bak] is not Markdown); a
    hidden name [.ext] and a name without a dot have none (so a file named
    [.md] is skipped). *)
Theorem extension_split_at_last_dot :
  (forall stem ext,
     stem <> EmptyString -> ~ In "."%char (list_ascii_of_string ext) ->
     (stem ++ "." ++ ext)%string <> ".." ->
     extension (stem ++ "." ++ ext) = Some ext) /\
  (forall ext, ~ In "."%char (list_ascii_of_string ext) ->
     extension ("." ++ ext) = None) /\
  (forall name, ~ In "."%char (list_ascii_of_string name) ->
     extension name = None).
Proof.
  split; [| split].
  - intros stem ext Hstem Hnd Hdd. unfold extension.
    destruct (string_dec (stem ++ "." ++ ext) "..") as [E | _]; [contradiction |].
    rewrite list_ascii_of_string_app. simpl.
    rewrite rev_app_distr. simpl. rewrite <- app_assoc. simpl.
    rewrite (rsplit_no_dot _ Hnd). simpl. rewrite rev_involutive, app_nil_r.
    destruct (list_ascii_of_string stem) eqn:Hs.
    + destruct stem; [contradiction | discriminate].
    + now rewrite string_of_list_ascii_of_string.
  - intros ext Hnd. unfold extension.
    destruct (string_dec ("." ++ ext) "..") as [_ | _]; [reflexivity |].
    simpl. rewrite (rsplit_no_dot _ Hnd). reflexivity.
  - intros name Hnd. unfold extension.
    destruct (string_dec name "..") as [_ | _]; [reflexivity |].
    rewrite <- (app_nil_r (rev (list_ascii_of_string name))).
    rewrite (rsplit_no_dot _ Hnd). reflexivity.
Qed.

Lemma escape_debug_plain (c : ascii) :
  debug_plain c = true -> escape_debug c = String c EmptyString.
Proof.
  unfold debug_plain, escape_debug. set (n := nat_of_ascii c).
  intro H. repeat rewrite andb_true_iff in H.
  destruct H as (((H1 & H2) & H3) & H4).
  apply Nat.leb_le in H1, H2. apply negb_true_iff, Nat.eqb_neq in H3, H4.
  repeat match goal with
         | |- context [(n =? ?k)%nat] =>
             replace (n =? k)%nat with false by (symmetry; apply Nat.eqb_neq; lia)
         | |- context [(n <? ?k)%nat] =>
             replace (n <? k)%nat with false by (symmetry; apply Nat.ltb_ge; lia)
         end.
  reflexivity.
Qed.

Lemma concat_escaped_plain (l : list ascii) :
  forallb debug_plain l = true ->
  String.concat "" (map escape_debug l) = string_of_list_ascii l.
Proof.
  induction l as [| c [| c' rest] IH]; intro H; [reflexivity | |].
  - simpl in H. rewrite andb_true_r in H. simpl. now apply escape_debug_plain.
  - simpl in H |- *. apply andb_prop in H as [Hc Hrest].
    rewrite (escape_debug_plain c Hc). simpl in IH. rewrite IH by exact Hrest.
    reflexivity.
Qed.

(** For a file name made of printable ASCII without double quotes or
    backslashes (single quotes are allowed), the name [ingest_docs] records
    is exactly the name between double quotes. *)
Theorem debug_os_str_plain (name : string) :
  forallb debug_plain (list_ascii_of_string name) = true ->
  debug_os_str name = (DQ ++ name ++ DQ)%string.
Proof.
  intro H. unfold debug_os_str.
  rewrite (concat_escaped_plain _ H), string_of_list_ascii_of_string.
  reflexivity.
Qed.

Lemma debug_os_str_plain_witness :
  forallb debug_plain (list_ascii_of_string "Alice's notes.md") = true /\
  debug_os_str "Alice's notes.md" = (DQ ++ "Alice's notes.md" ++ DQ)%string.
Proof.
  split; [reflexivity |]. apply debug_os_str_plain. reflexivity.
Defined.

Lemma extension_split_at_last_dot_witness :
  ("notes.md" <> EmptyString /\ ~ In "."%char (list_ascii_of_string "bak") /\
   ("notes.md" ++ "." ++ "bak")%string <> "..") /\
  extension ("notes.md" ++ "." ++ "bak") = Some "bak".
Proof.
  assert (Hnd : ~ In "."%char (list_ascii_of_string "bak"))
    by (simpl; intros [H | [H | [H | []]]]; discriminate).
  split; [split; [discriminate | split; [exact Hnd | discriminate]] |].
  apply (proj1 extension_split_at_last_dot "notes.md" "bak");
    [discriminate | exact Hnd | discriminate].
Defined.

(** ** Configuration *)

(** When the nine variables are set, [Config::new] builds the configuration
    from them: the four directories in the order docs v2, docs v3, source
    v2, source v3, and the bind address ["addr:port"], which [get_mcp_tools]
    turns into the URL ["http://addr:port/sse"]. *)
Theorem Config_new_ok (env : string -> result string VarError)
    docs_v2 docs_v3 src_v2 src_v3 addr port anthropic openai preamble :
  env ENV_UNISWAP_DOCS_DIR_V2 = Ok docs_v2 ->
  env ENV_UNISWAP_DOCS_DIR_V3 = Ok docs_v3 ->
  env ENV_UNISWAP_SOURCE_DIR_V2 = Ok src_v2 ->
  env ENV_UNISWAP_SOURCE_DIR_V3 = Ok src_v3 ->
  env ENV_SERVER_ADDRESS = Ok addr ->
  env ENV_SERVER_PORT = Ok port ->
  env ENV_ANTHROPIC_API_KEY = Ok anthropic ->
  env ENV_OPENAI_API_KEY = Ok openai ->
  env ENV_RIG_PREAMBLE = Ok preamble ->
  Config_new env
  = Ok {| server_bind_address := addr ++ ":" ++ port; api_key := anthropic;
          openai_api_key := openai; preamble := preamble;
          rag_directories := [docs_v2; docs_v3; src_v2; src_v3] |}
  /\ sse_url (addr ++ ":" ++ port) = ("http://" ++ addr ++ ":" ++ port ++ "/sse")%string.
Proof.
  intros H1 H2 H3 H4 H5 H6 H7 H8 H9. split.
  - unfold Config_new, get_bind_address, get_env_var.
    rewrite H1, H2, H3, H4, H5, H6, H7, H8, H9. reflexivity.
  - unfold sse_url. now rewrite !string_app_assoc.
Qed.

Lemma Config_new_ok_witness :
  let env := demo_env [] in
  (env ENV_UNISWAP_DOCS_DIR_V2 = Ok "UNISWAP_DOCS_DIR_V2" /\
   env ENV_UNISWAP_DOCS_DIR_V3 = Ok "UNISWAP_DOCS_DIR_V3" /\
   env ENV_UNISWAP_SOURCE_DIR_V2 = Ok "UNISWAP_SOURCE_DIR_V2" /\
   env ENV_UNISWAP_SOURCE_DIR_V3 = Ok "UNISWAP_SOURCE_DIR_V3" /\
   env ENV_SERVER_ADDRESS = Ok "MCP_SERVER_ADDRESS" /\
   env ENV_SERVER_PORT = Ok "MCP_SERVER_PORT" /\
   env ENV_ANTHROPIC_API_KEY = Ok "ANTHROPIC_API_KEY" /\
   env ENV_OPENAI_API_KEY = Ok "OPENAI_API_KEY" /\
   env ENV_RIG_PREAMBLE = Ok "RIG_PREAMBLE") /\
  (Config_new env
   = Ok {| server_bind_address := "MCP_SERVER_ADDRESS" ++ ":" ++ "MCP_SERVER_PORT";
           api_key := "ANTHROPIC_API_KEY"; openai_api_key := "OPENAI_API_KEY";
           preamble := "RIG_PREAMBLE";
           rag_directories := ["UNISWAP_DOCS_DIR_V2"; "UNISWAP_DOCS_DIR_V3";
                               "UNISWAP_SOURCE_DIR_V2"; "UNISWAP_SOURCE_DIR_V3"] |}
   /\ sse_url ("MCP_SERVER_ADDRESS" ++ ":" ++ "MCP_SERVER_PORT")
      = ("http://" ++ "MCP_SERVER_ADDRESS" ++ ":" ++ "MCP_SERVER_PORT" ++ "/sse")%string).
Proof.
  intro env.
  split; [repeat split |].
  apply Config_new_ok; reflexivity.
Defined.

(** [Config::new] panics exactly when a variable it reads is unset or not
    Unicode, and the panic message is the one guarding the first such
    variable in its reading order (directories first, then the bind
    address, the two API keys and the preamble). *)
Theorem Config_new_first_unset (env : string -> result string VarError) :
  (forall msg, first_unset env config_vars = Some msg -> Config_new env = Err msg) /\
  (first_unset env config_vars = None -> exists cfg, Config_new env = Ok cfg).
Proof.
  unfold Config_new, first_unset, config_vars, get_bind_address, get_env_var, expect.
  split.
  - intro msg.
    repeat match goal with |- context [env ?x] => destruct (env x) end;
      intro H; congruence.
  - repeat match goal with |- context [env ?x] => destruct (env x) end;
      intro H; first [discriminate | eexists; reflexivity].
Qed.

Lemma Config_new_first_unset_witness :
  first_unset (demo_env [ENV_OPENAI_API_KEY; ENV_UNISWAP_SOURCE_DIR_V3]) config_vars
    = Some "ENV_UNISWAP_SOURCE_DIR_V3 not set" /\
  Config_new (demo_env [ENV_OPENAI_API_KEY; ENV_UNISWAP_SOURCE_DIR_V3])
    = Err "ENV_UNISWAP_SOURCE_DIR_V3 not set".
Proof.
  assert (H : first_unset (demo_env [ENV_OPENAI_API_KEY; ENV_UNISWAP_SOURCE_DIR_V3])
                config_vars = Some "ENV_UNISWAP_SOURCE_DIR_V3 not set") by reflexivity.
  split; [exact H |].
  exact (proj1 (Config_new_first_unset _) _ H).
Defined.

(** ** The [main.rs] loop *)

(** In the [main.rs] loop, with a chat service that always answers, the
    chat history grows by exactly the user's lines: the replies are never
    recorded.  The loop ends with [Ok(())] at the first [readline] error,
    end of input included. *)
Theorem main_rs_history_records_user_lines {Agent Message Error : Type}
    (chat : Agent -> string -> list Message -> result string Error)
    (user_message : string -> Message) (provider : Agent) :
  (forall line history, exists reply, chat provider line history = Ok reply) ->
  forall lines chat_history,
    snd (MainRs.repl_loop chat user_message provider chat_history (map Ok lines))
    = MainRs.Running (chat_history ++ map user_message lines)
    /\ forall e rest,
         snd (MainRs.repl_loop chat user_message provider chat_history
                (map Ok lines ++ Err e :: rest))
         = MainRs.Terminated (Ok tt).
Proof.
  intros Hchat lines.
  induction lines as [| line lines IH]; intro chat_history.
  - split; [simpl; now rewrite app_nil_r | reflexivity].
  - destruct (Hchat line (chat_history ++ [user_message line])) as [reply Hr].
    destruct (IH (chat_history ++ [user_message line])) as [IH1 IH2].
    split.
    + simpl. rewrite Hr.
      destruct (MainRs.repl_loop chat user_message provider
                  (chat_history ++ [user_message line]) (map Ok lines)) as [o st].
      simpl in IH1 |- *. now rewrite IH1, <- app_assoc.
    + intros e rest. simpl. rewrite Hr.
      specialize (IH2 e rest).
      destruct (MainRs.repl_loop chat user_message provider
                  (chat_history ++ [user_message line]) (map Ok lines ++ Err e :: rest))
        as [o st].
      exact IH2.
Qed.

Lemma main_rs_history_records_user_lines_witness :
  (forall line history, exists reply, demo_chat tt line history = Ok reply) /\
  snd (MainRs.repl_loop demo_chat (fun l => l) tt [] (map Ok ["hi"; "bye"]))
  = MainRs.Running ([] ++ map (fun l => l) ["hi"; "bye"]).
Proof.
  assert (H : forall line history, exists reply, demo_chat tt line history = Ok reply)
    by (intros; eexists; reflexivity).
  split; [exact H |].
  exact (proj1 (main_rs_history_records_user_lines demo_chat (fun l => l) tt H
                  ["hi"; "bye"] [])).
Defined.
